(** * anime_sama_api.catalogue: a shallow embedding and its properties

    The module [catalogue.py] defines one class, [Catalogue]: an entry of the
    streaming index with a lazily fetched page, a season extractor driven by a
    regular expression, and a resolver that asks a metadata service for the
    title and release year of the entry.

    Conventions of the embedding:
    - a Python [str] is a list of code points; the code points are those of
      the Latin-1 range (U+0000 to U+00FF), carried by [ascii], and the
      character tables ([str.lower], [str.isspace], the regex classes [\w]
      and [\s]) are Python's tables on that range;
    - the object [self] is a record that every method receives and returns;
    - the network is an oracle that answers a request from the history of the
      requests made so far, and every request is appended to that history;
    - a Python exception is the [Raise] case of [result];
    - the two [print] calls of the resolver write diagnostics only and are
      left out. *)

From Stdlib Require Import String Ascii DecimalString ZArith Lia Bool Arith List.
Import ListNotations.
Local Open Scope list_scope.

(** ** Python values *)

Definition str := list ascii.

(** A string literal of the source. *)
Definition py (s : string) : str := list_ascii_of_string s.

Inductive exn :=
| IndexError
| ValueError
| TransportError
| JSONDecodeError
| AttributeError.

Inductive result (A : Type) :=
| Ok (a : A)
| Raise (e : exn).
Arguments Ok {A} a.
Arguments Raise {A} e.

Definition rbind {A B} (r : result A) (f : A -> result B) : result B :=
  match r with
  | Ok a => f a
  | Raise e => Raise e
  end.

(** The newline and the double quote. *)
Definition newline : ascii := "010"%char.
Definition dquote : ascii := "034"%char.

(** Truth value of a [str]: the empty string is false. *)
Definition truthy (s : str) : bool :=
  match s with
  | [] => false
  | _ :: _ => true
  end.

(** [a == b] on [str]. *)
Fixpoint str_eqb (a b : str) : bool :=
  match a, b with
  | [], [] => true
  | x :: a', y :: b' => Ascii.eqb x y && str_eqb a' b'
  | _, _ => false
  end.

(** [s.startswith(p)]. *)
Fixpoint starts_with (p s : str) : bool :=
  match p, s with
  | [], _ => true
  | x :: p', y :: s' => Ascii.eqb x y && starts_with p' s'
  | _ :: _, [] => false
  end.

(** [needle in hay]. *)
Fixpoint contains (needle hay : str) : bool :=
  starts_with needle hay ||
  match hay with
  | [] => false
  | _ :: hay' => contains needle hay'
  end.

(** [s.split(sep)] for a separator of one character. *)
Fixpoint split (sep : ascii) (s : str) : list str :=
  match s with
  | [] => [[]]
  | c :: s' =>
      if Ascii.eqb c sep then [] :: split sep s'
      else match split sep s' with
           | seg :: segs => (c :: seg) :: segs
           | [] => [[c]]
           end
  end.

(** [sep.join(l)]. *)
Fixpoint join (sep : str) (l : list str) : str :=
  match l with
  | [] => []
  | [x] => x
  | x :: l' => x ++ sep ++ join sep l'
  end.

(** [l[-k]] for [k >= 1]; Python raises [IndexError] out of range. *)
Definition neg_index {A} (l : list A) (k : nat) : result A :=
  match nth_error (rev l) (k - 1) with
  | Some a => Ok a
  | None => Raise IndexError
  end.

(** [s.replace(a, b)] for two strings of one character. *)
Definition replace (a b : ascii) (s : str) : str :=
  map (fun c => if Ascii.eqb c a then b else c) s.

(** *** Character tables (Latin-1 range) *)

Definition between (lo hi : nat) (c : ascii) : bool :=
  let n := nat_of_ascii c in (lo <=? n) && (n <=? hi).

(** [c.isspace()], also the regex class [\s]. *)
Definition is_space (c : ascii) : bool :=
  between 9 13 c || between 28 32 c ||
  (nat_of_ascii c =? 133) || (nat_of_ascii c =? 160).

Definition is_upper (c : ascii) : bool :=
  between 65 90 c || between 192 214 c || between 216 222 c.

Definition is_alpha (c : ascii) : bool :=
  between 65 90 c || between 97 122 c ||
  (nat_of_ascii c =? 170) || (nat_of_ascii c =? 181) ||
  (nat_of_ascii c =? 186) ||
  between 192 214 c || between 216 246 c || between 248 255 c.

(** Decimal digits, and the superscripts and fractions that Python counts
    as digits or numerics. *)
Definition is_numeric (c : ascii) : bool :=
  between 48 57 c || between 178 179 c ||
  (nat_of_ascii c =? 185) || between 188 190 c.

(** [c.isalnum()]. *)
Definition is_alnum (c : ascii) : bool := is_alpha c || is_numeric c.

(** The regex class [\w]: alphanumeric or the underscore. *)
Definition is_word (c : ascii) : bool := is_alnum c || Ascii.eqb c "_"%char.

Definition lower_char (c : ascii) : ascii :=
  if is_upper c then ascii_of_nat (nat_of_ascii c + 32) else c.

(** [s.lower()]. *)
Definition lower (s : str) : str := map lower_char s.

Fixpoint lstrip (s : str) : str :=
  match s with
  | c :: s' => if is_space c then lstrip s' else s
  | [] => []
  end.

(** [s.strip()]. *)
Definition strip (s : str) : str := rev (lstrip (rev (lstrip s))).

(** [str(n)] for an [int]. *)
Definition str_of_int (n : Z) : str := py (NilZero.string_of_int (Z.to_int n)).

(** ** The regular expressions of the module

    A backtracking matcher in continuation-passing style, as Python's [re]:
    alternatives are tried from left to right, a lazy quantifier tries the
    shortest repetition first and a greedy one the longest. Quantifiers
    apply to one character class, which is all the patterns of the module
    need; groups are not nested, so they close in the order they open. *)

Inductive cset :=
| Dot                        (* .    any character but the newline *)
| Chr (c : ascii)            (* a literal character *)
| Word                       (* \w *)
| NotWord                    (* \W *)
| Space                      (* \s *)
| OneOf (l : list cset)      (* [...] *)
| NoneOf (l : list cset).    (* [^...] *)

Fixpoint cmatch (cs : cset) (c : ascii) : bool :=
  match cs with
  | Dot => negb (Ascii.eqb c newline)
  | Chr x => Ascii.eqb c x
  | Word => is_word c
  | NotWord => negb (is_word c)
  | Space => is_space c
  | OneOf l => existsb (fun x => cmatch x c) l
  | NoneOf l => negb (existsb (fun x => cmatch x c) l)
  end.

Inductive regex :=
| Lit (s : str)              (* literal text *)
| Cls (c : cset)             (* one character of a class *)
| LazyPlus (c : cset)        (* c+? *)
| Plus (c : cset)            (* c+ *)
| Star (c : cset)            (* c* *)
| Alt (r1 r2 : regex)        (* (?:r1|r2) *)
| Group (r : regex)          (* (r) *)
| Cat (r1 r2 : regex).       (* r1r2 *)

Section Matcher.
Context {R : Type}.

(** [c+?] then [k]: one more character only when [k] fails. *)
Fixpoint lazy_plus (c : cset) (s : str) (k : str -> option R) : option R :=
  match s with
  | [] => None
  | x :: s' =>
      if cmatch c x then
        match k s' with
        | Some r => Some r
        | None => lazy_plus c s' k
        end
      else None
  end.

(** [c*] then [k]: as many characters as possible, giving back one at a
    time when [k] fails. *)
Fixpoint greedy_star (c : cset) (s : str) (k : str -> option R) : option R :=
  match s with
  | [] => k []
  | x :: s' =>
      if cmatch c x then
        match greedy_star c s' k with
        | Some r => Some r
        | None => k s
        end
      else k s
  end.

(** The text consumed between the input [s] and its suffix [s']. *)
Definition consumed (s s' : str) : str :=
  firstn (length s - length s') s.

Fixpoint rmatch (r : regex) (s : str) (caps : list str)
         (k : str -> list str -> option R) : option R :=
  match r with
  | Lit p => if starts_with p s then k (skipn (length p) s) caps else None
  | Cls c =>
      match s with
      | x :: s' => if cmatch c x then k s' caps else None
      | [] => None
      end
  | LazyPlus c => lazy_plus c s (fun s' => k s' caps)
  | Plus c =>
      match s with
      | x :: s' =>
          if cmatch c x then greedy_star c s' (fun s'' => k s'' caps)
          else None
      | [] => None
      end
  | Star c => greedy_star c s (fun s' => k s' caps)
  | Alt r1 r2 =>
      match rmatch r1 s caps k with
      | Some res => Some res
      | None => rmatch r2 s caps k
      end
  | Group r1 =>
      rmatch r1 s caps (fun s' caps' => k s' (caps' ++ [consumed s s']))
  | Cat r1 r2 =>
      rmatch r1 s caps (fun s' caps' => rmatch r2 s' caps' k)
  end.
End Matcher.

(** A match at the start of [s]: the groups and the rest of the input. *)
Definition match_here (r : regex) (s : str) : option (list str * str) :=
  rmatch r s [] (fun rest caps => Some (caps, rest)).

(** The scan of [re.findall] and [re.sub]: the leftmost match, then the
    search resumes where it ended. [skip] counts the characters of the
    current match still to pass over. The patterns of the module match at
    least one character, so no match is empty. *)
Fixpoint scan (r : regex) (s : str) (skip : nat)
  : list (str + list str) :=
  match s with
  | [] => []
  | c :: s' =>
      match skip with
      | S n => scan r s' n
      | O =>
          match match_here r s with
          | Some (caps, rest) =>
              inr caps :: scan r s' (length s - length rest - 1)
          | None => inl [c] :: scan r s' 0
          end
      end
  end.

(** [re.findall(r, s)]: the groups of every match, in the order of the
    text. *)
Definition findall (r : regex) (s : str) : list (list str) :=
  flat_map (fun x => match x with inl _ => [] | inr caps => [caps] end)
           (scan r s 0).

(** [re.sub(r, repl, s)]: every match gives way to [repl], the text between
    matches stays. *)
Definition re_sub (r : regex) (repl : str) (s : str) : str :=
  flat_map (fun x => match x with inl t => t | inr _ => repl end)
           (scan r s 0).

(** [r'panneauAnime\("(.+?)", *"(.+?)(?:vostfr|vf)"\);'] *)
Definition season_re : regex :=
  Cat (Lit (py "panneauAnime(" ++ [dquote])) (
  Cat (Group (LazyPlus Dot)) (
  Cat (Lit (dquote :: py ",")) (
  Cat (Star (Chr " "%char)) (
  Cat (Lit [dquote]) (
  Cat (Group (LazyPlus Dot)) (
  Cat (Alt (Lit (py "vostfr")) (Lit (py "vf")))
      (Lit (dquote :: py ");")))))))).

(** [r"Avancement.+?>(.+?)<"] *)
Definition advancement_re : regex :=
  Cat (Lit (py "Avancement")) (
  Cat (LazyPlus Dot) (
  Cat (Lit (py ">")) (
  Cat (Group (LazyPlus Dot)) (Lit (py "<"))))).

(** [r"Correspondance.+?>(.+?)<"] *)
Definition correspondence_re : regex :=
  Cat (Lit (py "Correspondance")) (
  Cat (LazyPlus Dot) (
  Cat (Lit (py ">")) (
  Cat (Group (LazyPlus Dot)) (Lit (py "<"))))).

(** [r"Synopsis[\W\w]+?>(.+)<"] *)
Definition synopsis_re : regex :=
  Cat (Lit (py "Synopsis")) (
  Cat (LazyPlus (OneOf [NotWord; Word])) (
  Cat (Lit (py ">")) (
  Cat (Group (Plus Dot)) (Lit (py "<"))))).

(** [r'[^\w\s]'] *)
Definition special_re : regex := Cls (NoneOf [Word; Space]).

(** ** The collaborators of the class *)

(** [Category = Literal["Anime", "Scans", "Film", "Autres"]] *)
Inductive Category := Anime | Scans | Film | Autres.

Definition Category_eqb (a b : Category) : bool :=
  match a, b with
  | Anime, Anime | Scans, Scans | Film, Film | Autres, Autres => true
  | _, _ => false
  end.

(** What the class reads of an [httpx] response. *)
Record Response := {
  is_success : bool;
  text : str
}.

(** The entry [aired] of a record of the metadata service: absent, [null],
    or an object, whose entry [from] is a string, [None] when it is [null]
    or absent. *)
Inductive AiredField :=
| AiredAbsent
| AiredNull
| AiredObject (from : option str).

(** A record of the metadata service. The default title is a string, as
    the service documents it; each of the other two titles is a string or
    [null], and an absent key reads as the default of the [get] that
    fetches it. [year] is an integer or [null]. *)
Record AnimeRecord := {
  title : str;
  title_english : option str;
  title_japanese : option str;
  year : option Z;
  aired : AiredField
}.

(** What the class reads of an [aiohttp] response: the status, and the
    records under the key [data] of the decoded body ([resp.json()] raises
    when the body does not decode). *)
Record ClientResponse := {
  status : Z;
  json : result (list AnimeRecord)
}.

Inductive Event :=
| ClientGet (u : str)        (* self.client.get(u) *)
| SessionGet (u : str).      (* session.get(u) of a fresh aiohttp session *)

(** The world outside the class. A request is answered from the history of
    the earlier requests, or raises. [remove_some_js_comments] comes from
    [utils.py]. *)
Record Env := {
  client_get : list Event -> str -> result Response;
  session_get : list Event -> str -> result ClientResponse;
  remove_some_js_comments : str -> str
}.

Module Season.
Record t := {
  url : str;
  name : str;
  serie_name : str
}.
End Season.

(** ** The class [Catalogue] *)

Record Catalogue := {
  url : str;
  site_url : str;
  name : str;
  _raw_name : str;
  _page : option str;
  _name_with_year : option str;
  alternative_names : list str;
  genres : list str;
  categories : list Category;
  languages : list str;
  image_url : str
}.

Definition or_default {A} (o : option A) (d : A) : A :=
  match o with
  | Some a => a
  | None => d
  end.

(** [Catalogue.__init__]. The optional arguments are [None] by default in
    the source; [client] only carries the connection and is the oracle of
    [Env] here. *)
Definition __init__ (url name : str) (alternative_names : option (list str))
           (genres : option (list str)) (categories : option (list Category))
           (languages : option (list str)) (image_url : str)
  : result Catalogue :=
  let alternative_names := or_default alternative_names [] in
  let genres := or_default genres [] in
  let categories := or_default categories [] in
  let languages := or_default languages [] in
  rbind (neg_index url 1) (fun last =>
  let self_url :=
    if negb (Ascii.eqb last "/"%char) then url ++ py "/" else url in
  let self_site_url := join (py "/") (firstn 3 (split "/"%char url)) ++ py "/" in
  rbind (if truthy name then Ok name else neg_index (split "/"%char url) 2)
        (fun self_name =>
  let self_raw_name := self_name in
  let self_name :=
    match alternative_names with
    | first :: _ => first
    | [] => self_name
    end in
  Ok {| url := self_url;
        site_url := self_site_url;
        name := self_name;
        _raw_name := self_raw_name;
        _page := None;
        _name_with_year := None;
        alternative_names := alternative_names;
        genres := genres;
        categories := categories;
        languages := languages;
        image_url := image_url |})).

(** A value of any type, as [__eq__] may receive. *)
Inductive PyObject :=
| PyNone
| PyStr (s : str)
| PyInt (n : Z)
| PyCatalogue (c : Catalogue).

(** [Catalogue.__eq__] *)
Definition __eq__ (self : Catalogue) (value : PyObject) : bool :=
  match value with
  | PyCatalogue value => str_eqb (url self) (url value)
  | _ => false
  end.

Definition is_anime (self : Catalogue) : bool :=
  existsb (Category_eqb Anime) (categories self).

Definition is_manga (self : Catalogue) : bool :=
  existsb (Category_eqb Scans) (categories self).

Definition is_film (self : Catalogue) : bool :=
  existsb (Category_eqb Film) (categories self).

Definition is_other (self : Catalogue) : bool :=
  existsb (Category_eqb Autres) (categories self).

(** *** Methods that read the network

    A method runs in the environment, on the object and the history of
    requests; it returns a value or raises, and leaves the object and the
    history as it made them. *)

Definition M (A : Type) : Type :=
  Env -> Catalogue -> list Event -> result A * Catalogue * list Event.

Definition ret {A} (a : A) : M A :=
  fun _ self h => (Ok a, self, h).

Definition bind {A B} (m : M A) (f : A -> M B) : M B :=
  fun env self h =>
    match m env self h with
    | (Ok a, self', h') => f a env self' h'
    | (Raise e, self', h') => (Raise e, self', h')
    end.

Notation "x <- m ;; k" := (bind m (fun x => k))
  (at level 61, m at next level, right associativity).
Notation "m ;;; k" := (bind m (fun _ => k))
  (at level 61, right associativity).

(** [try: m  except Exception: handler] *)
Definition try_except {A} (m : M A) (handler : exn -> M A) : M A :=
  fun env self h =>
    match m env self h with
    | (Ok a, self', h') => (Ok a, self', h')
    | (Raise e, self', h') => handler e env self' h'
    end.

Definition lift {A} (r : result A) : M A :=
  fun _ self h => (r, self, h).

Definition get_self : M Catalogue :=
  fun _ self h => (Ok self, self, h).

Definition ask : M Env :=
  fun env self h => (Ok env, self, h).

(** The object after [self._page = p]. *)
Definition with_page (p : str) (self : Catalogue) : Catalogue :=
  {| url := url self; site_url := site_url self; name := name self;
     _raw_name := _raw_name self; _page := Some p;
     _name_with_year := _name_with_year self;
     alternative_names := alternative_names self; genres := genres self;
     categories := categories self; languages := languages self;
     image_url := image_url self |}.

(** The object after [self._name_with_year = n]. *)
Definition with_name_with_year (n : str) (self : Catalogue) : Catalogue :=
  {| url := url self; site_url := site_url self; name := name self;
     _raw_name := _raw_name self; _page := _page self;
     _name_with_year := Some n;
     alternative_names := alternative_names self; genres := genres self;
     categories := categories self; languages := languages self;
     image_url := image_url self |}.

(** [self._page = p] *)
Definition set_page (p : str) : M unit :=
  fun _ self h => (Ok tt, with_page p self, h).

(** [self._name_with_year = n] *)
Definition set_name_with_year (n : str) : M unit :=
  fun _ self h => (Ok tt, with_name_with_year n self, h).

(** [await self.client.get(u)] *)
Definition await_client_get (u : str) : M Response :=
  fun env self h => (client_get env h u, self, h ++ [ClientGet u]).

(** [session.get(u)] in a fresh [aiohttp.ClientSession] *)
Definition await_session_get (u : str) : M ClientResponse :=
  fun env self h => (session_get env h u, self, h ++ [SessionGet u]).

(** [Catalogue.page] *)
Definition page : M str :=
  self <- get_self ;;
  match _page self with
  | Some cached => ret cached
  | None =>
      response <- await_client_get (url self) ;;
      let p := if negb (is_success response) then [] else text response in
      set_page p ;;;
      ret p
  end.

(** The inner function [normalize] of [_titles_match]:
    [re.sub(r'[^\w\s]', '', title.lower().strip())] *)
Definition normalize (title : str) : str :=
  re_sub special_re [] (strip (lower title)).

(** [Catalogue._titles_match]; [api_title] is [None] for a JSON [null]. *)
Definition _titles_match (search_title : str) (api_title : option str) : bool :=
  match api_title with
  | None => false
  | Some api_title =>
      if negb (truthy api_title) then false
      else
        let normalized_search := normalize search_title in
        let normalized_api := normalize api_title in
        str_eqb normalized_search normalized_api
        || contains normalized_search normalized_api
        || contains normalized_api normalized_search
  end.

(** The value bound to [year] in [get_name_with_year]: the [int] of the key
    [year], or a string cut from [aired.from]. *)
Inductive YearValue :=
| YearInt (y : Z)
| YearStr (s : str).

(** [anime.get("year") or (aired.from[:4] if aired.from else "")], where
    [aired] is [anime.get("aired", {})]: it is read only when the year is
    [null], absent or zero, and reading [from] off a [null] raises
    [AttributeError]. *)
Definition year_of (anime : AnimeRecord) : result YearValue :=
  let from_aired :=
    match aired anime with
    | AiredAbsent => Ok (YearStr [])
    | AiredNull => Raise AttributeError
    | AiredObject (Some from) =>
        if truthy from then Ok (YearStr (firstn 4 from)) else Ok (YearStr [])
    | AiredObject None => Ok (YearStr [])
    end in
  match year anime with
  | Some y => if Z.eqb y 0 then from_aired else Ok (YearInt y)
  | None => from_aired
  end.

(** [f"{title} ({year})" if year else title] *)
Definition with_year (title : str) (y : YearValue) : str :=
  match y with
  | YearInt n =>
      if Z.eqb n 0 then title
      else title ++ py " (" ++ str_of_int n ++ py ")"
  | YearStr s =>
      if truthy s then title ++ py " (" ++ s ++ py ")" else title
  end.

Definition record_matches (name_to_search : str) (anime : AnimeRecord) : bool :=
  _titles_match name_to_search (Some (title anime))
  || _titles_match name_to_search (title_english anime)
  || _titles_match name_to_search (title_japanese anime).

(** The loop [for anime in animes]: the name to cache and return at the
    first record that matches, [None] when the loop runs to its end; it
    raises when the year of that record cannot be read. *)
Fixpoint first_match (name_to_search : str) (animes : list AnimeRecord)
  : result (option str) :=
  match animes with
  | [] => Ok None
  | anime :: rest =>
      if record_matches name_to_search anime
      then rbind (year_of anime) (fun y =>
           Ok (Some (with_year (title anime) y)))
      else first_match name_to_search rest
  end.

(** [f"https://api.jikan.moe/v4/anime?q={query}&limit=3"] *)
Definition query_url (name_to_search : str) : str :=
  let query := replace " "%char "+"%char name_to_search in
  py "https://api.jikan.moe/v4/anime?q=" ++ query ++ py "&limit=3".

(** The body of the [try] for one candidate name: [Some] is the [return]
    inside the loop, [None] falls through to the next candidate. *)
Definition try_name (name_to_search : str) : M (option str) :=
  resp <- await_session_get (query_url name_to_search) ;;
  if Z.eqb (status resp) 200 then
    animes <- lift (json resp) ;;
    found <- lift (first_match name_to_search animes) ;;
    match found with
    | Some full => set_name_with_year full ;;; ret (Some full)
    | None => ret None
    end
  else ret None.

(** The loop [for name_to_search in names_to_try] with its [try] and
    [except Exception: continue]. *)
Fixpoint try_names (names : list str) : M (option str) :=
  match names with
  | [] => ret None
  | name_to_search :: rest =>
      found <- try_except (try_name name_to_search) (fun _ => ret None) ;;
      match found with
      | Some full => ret (Some full)
      | None => try_names rest
      end
  end.

(** [[self.name] + (self.alternative_names or [])]. The alternate names
    are a list, as the constructor makes them by default; on a tuple that
    is not empty, which the annotation of the constructor admits as well,
    the sum raises [TypeError], outside the [try] of the loop. *)
Definition names_to_try (self : Catalogue) : list str :=
  [name self] ++ alternative_names self.

(** [Catalogue.get_name_with_year] *)
Definition get_name_with_year : M str :=
  self <- get_self ;;
  match _name_with_year self with
  | Some cached => ret cached
  | None =>
      found <- try_names (names_to_try self) ;;
      match found with
      | Some full => ret full
      | None => set_name_with_year (name self) ;;; ret (name self)
      end
  end.

(** The unpacking [for name, link in seasons] of the tuples of
    [re.findall]. *)
Fixpoint build_seasons (base full : str) (found : list (list str))
  : result (list Season.t) :=
  match found with
  | [] => Ok []
  | [name; link] :: rest =>
      rbind (build_seasons base full rest) (fun l =>
      Ok ({| Season.url := base ++ link;
             Season.name := name;
             Season.serie_name := full |} :: l))
  | _ :: _ => Raise ValueError
  end.

(** [Catalogue.seasons] *)
Definition seasons : M (list Season.t) :=
  p <- page ;;
  env <- ask ;;
  let page_without_comments := remove_some_js_comments env p in
  let found := findall season_re page_without_comments in
  full <- get_name_with_year ;;
  self <- get_self ;;
  lift (build_seasons (url self) full found).

(** [search[0]] of a [re.findall] with one group, [""] when it is empty. *)
Definition first_capture (found : list (list str)) : str :=
  match found with
  | [] => []
  | caps :: _ => hd [] caps
  end.

(** [Catalogue.advancement] *)
Definition advancement : M str :=
  p <- page ;; ret (first_capture (findall advancement_re p)).

(** [Catalogue.correspondence] *)
Definition correspondence : M str :=
  p <- page ;; ret (first_capture (findall correspondence_re p)).

(** [Catalogue.synopsis] *)
Definition synopsis : M str :=
  p <- page ;; ret (first_capture (findall synopsis_re p)).

(** Truth value of a list: the empty list is false. *)
Definition truthy_list {A} (l : list A) : bool :=
  match l with
  | [] => false
  | _ :: _ => true
  end.

(** The generator [flags[lang] for lang in ... if lang != 'VOSTFR'], as
    [join] consumes it. [flags] is the table of [langs.py]; a language
    without an entry raises [KeyError], which is [None] here. *)
Fixpoint shown_flags (flags : str -> option str) (langs : list str)
  : option (list str) :=
  match langs with
  | [] => Some []
  | lang :: rest =>
      if negb (str_eqb lang (py "VOSTFR")) then
        match flags lang with
        | Some flag =>
            match shown_flags flags rest with
            | Some l => Some (flag :: l)
            | None => None
            end
        | None => None
        end
      else shown_flags flags rest
  end.

(** [Catalogue.fancy_name]. The set [languages] is read in the order of the
    list. *)
Definition fancy_name (flags : str -> option str) (self : Catalogue)
  : option str :=
  let names :=
    if truthy_list (alternative_names self)
    then [[]] ++ alternative_names self
    else [] in
  match shown_flags flags (languages self) with
  | Some shown =>
      Some (name self ++ py "[bright_black]" ++ join (py " - ") names ++
            py " " ++ join (py " ") shown)
  | None => None
  end.

(** [Catalogue.__str__] *)
Definition __str__ (flags : str -> option str) (self : Catalogue)
  : option str :=
  fancy_name flags self.

(** ** Vocabulary of the statements *)

(** [x in y] holds exactly when [y] reads [pre ++ x ++ post]. *)
Definition substring (x y : str) : Prop :=
  exists pre post, y = pre ++ x ++ post.

(** What one candidate name draws from the answer to its query: the name
    that [get_name_with_year] returns at once, or nothing, in which case
    the loop goes on to the next candidate; an exception in the [try] comes
    to nothing too. *)
Definition answer (name_to_search : str) (r : result ClientResponse)
  : option str :=
  match r with
  | Ok resp =>
      if Z.eqb (status resp) 200 then
        match json resp with
        | Ok animes =>
            match first_match name_to_search animes with
            | Ok found => found
            | Raise _ => None
            end
        | Raise _ => None
        end
      else None
  | Raise _ => None
  end.

(** The requests to the metadata service for a list of candidate names. *)
Definition queries (names : list str) : list Event :=
  map (fun n => SessionGet (query_url n)) names.

(** The addresses that a history fetched through the client of the
    entity. *)
Definition client_gets (h : list Event) : list str :=
  flat_map (fun e => match e with ClientGet u => [u] | SessionGet _ => [] end)
           h.

(** A caller of the public methods; what a call returns or raises is
    dropped, its effects stay. *)
Inductive Call :=
| CallPage
| CallSeasons
| CallAdvancement
| CallCorrespondence
| CallSynopsis
| CallGetNameWithYear.

Definition discard {A} (m : M A) : M unit :=
  fun env self h =>
    match m env self h with
    | (_, self', h') => (Ok tt, self', h')
    end.

Definition call (c : Call) : M unit :=
  match c with
  | CallPage => discard page
  | CallSeasons => discard seasons
  | CallAdvancement => discard advancement
  | CallCorrespondence => discard correspondence
  | CallSynopsis => discard synopsis
  | CallGetNameWithYear => discard get_name_with_year
  end.

Fixpoint call_all (l : list Call) : M unit :=
  match l with
  | [] => ret tt
  | c :: l' => call c ;;; call_all l'
  end.

(** The addresses that a history asked the metadata service for. *)
Definition session_gets (h : list Event) : list str :=
  flat_map (fun e => match e with SessionGet u => [u] | ClientGet _ => [] end)
           h.

(** The answer to the query for a candidate name holds no record that
    matches it: the request raised, or its status is not 200, or its body
    does not decode, or none of its records matches. *)
Definition no_record_matches (name_to_search : str)
           (r : result ClientResponse) : Prop :=
  forall resp animes,
    r = Ok resp -> status resp = 200%Z -> json resp = Ok animes ->
    forall anime, In anime animes -> record_matches name_to_search anime = false.

(** The characters that [normalize] keeps. *)
Definition word_or_space (c : ascii) : bool := is_word c || is_space c.

(** *** Season declarations

    A page declares a season by a call of the script function
    [panneauAnime], with the name of the season and a link that ends in a
    language marker. *)

Inductive Marker := Vostfr | Vf.

Definition marker_text (m : Marker) : str :=
  match m with
  | Vostfr => py "vostfr"
  | Vf => py "vf"
  end.

Record Declaration := {
  d_name : str;
  d_spaces : nat;              (* blanks between the comma and the link *)
  d_link : str;                (* the link without its marker *)
  d_marker : Marker
}.

(** The text that opens every declaration. *)
Definition keyword : str := py "panneauAnime(" ++ [dquote].

(** The quote and the comma that end the name; the quote, the bracket and
    the semicolon that end the declaration. *)
Definition name_end : str := dquote :: py ",".
Definition closing : str := dquote :: py ");".

Definition declaration_text (d : Declaration) : str :=
  keyword ++ d_name d ++ name_end ++
  repeat " "%char (d_spaces d) ++ [dquote] ++
  d_link d ++ marker_text (d_marker d) ++ closing.

(** The pattern of [seasons], cut where the proofs take it apart: the end
    of the pattern from the marker on, from the link on, and from the end
    of the name on. *)
Definition marker_re : regex :=
  Cat (Alt (Lit (py "vostfr")) (Lit (py "vf"))) (Lit closing).

Definition link_re : regex :=
  Cat (Lit [dquote]) (Cat (Group (LazyPlus Dot)) marker_re).

Definition after_name_re : regex :=
  Cat (Lit name_end) (Cat (Star (Chr " "%char)) link_re).

(** A name or a link as a declaration quotes it: not empty, on one line,
    and free of the double quote that would end it. *)
Definition plain (s : str) : bool :=
  truthy s && negb (existsb (Ascii.eqb dquote) s)
  && negb (existsb (Ascii.eqb newline) s).

Definition well_formed (d : Declaration) : bool :=
  plain (d_name d) && plain (d_link d).

(** Text between declarations: any text in which no declaration opens. *)
Definition keyword_free (s : str) : bool := negb (contains keyword s).

(** A page body: some text, then declarations, each followed by some
    text. *)
Definition document (first : str) (l : list (Declaration * str)) : str :=
  first ++ flat_map (fun df => declaration_text (fst df) ++ snd df) l.

(** The season that [seasons] builds for a declaration. *)
Definition season_of (base full : str) (d : Declaration) : Season.t :=
  {| Season.url := base ++ d_link d;
     Season.name := d_name d;
     Season.serie_name := full |}.


(** *** Labelled fields

    The page shows a field as a label, some markup that ends with [>], and
    the value up to a [<]. *)

(** The pattern of [advancement] and [correspondence], for a label. *)
Definition field_re (label : str) : regex :=
  Cat (Lit label) (
  Cat (LazyPlus Dot) (
  Cat (Lit (py ">")) (
  Cat (Group (LazyPlus Dot)) (Lit (py "<"))))).

(** The class [[\W\w]] of the pattern of [synopsis]. *)
Definition any_char : cset := OneOf [NotWord; Word].

(** A text that is not empty, is on one line and is free of [x]. *)
Definition one_line_without (x : ascii) (s : str) : bool :=
  truthy s && negb (existsb (Ascii.eqb x) s)
  && negb (existsb (Ascii.eqb newline) s).

(** A text that is on one line. *)
Definition one_line (s : str) : bool :=
  negb (existsb (Ascii.eqb newline) s).

(** A text that is free of [x]. *)
Definition without (x : ascii) (s : str) : bool :=
  negb (existsb (Ascii.eqb x) s).

(** The start of the text is the end of a line: the text is empty or
    starts with a newline. *)
Definition line_ends (s : str) : bool :=
  match s with
  | [] => true
  | c :: _ => Ascii.eqb c newline
  end.

(** Every [>] of the text is directly followed, in the text, by a
    newline. *)
Fixpoint brackets_end_lines (s : str) : bool :=
  match s with
  | [] => true
  | c :: t =>
      (if Ascii.eqb c ">"%char
       then match t with
            | d :: _ => Ascii.eqb d newline
            | [] => false
            end
       else true)
      && brackets_end_lines t
  end.

(** The input is at an end for a class: it is empty, or its first
    character is not of the class. *)
Definition blocked (c : cset) (s : str) : Prop :=
  s = [] \/ exists y t, s = y :: t /\ cmatch c y = false.

(** ** Sample inputs *)

Definition naruto_url : str := py "https://anime-sama.fr/catalogue/naruto/".

(** The same address without its trailing separator. *)
Definition naruto_url_bare : str := py "https://anime-sama.fr/catalogue/naruto".

(** An entity built from the address and the explicit name ["Naruto"]. *)
Definition naruto : Catalogue :=
  {| url := naruto_url;
     site_url := py "https://anime-sama.fr/";
     name := py "Naruto";
     _raw_name := py "Naruto";
     _page := None;
     _name_with_year := None;
     alternative_names := [];
     genres := [];
     categories := [];
     languages := [];
     image_url := [] |}.

Definition naruto_record : AnimeRecord :=
  {| title := py "Naruto";
     title_english := Some (py "Naruto");
     title_japanese := None;
     year := Some 2002%Z;
     aired := AiredObject (Some (py "2002-10-03T00:00:00+00:00")) |}.

(** The same record with a year field of zero. *)
Definition zero_year_record : AnimeRecord :=
  {| title := py "Naruto";
     title_english := Some (py "Naruto");
     title_japanese := None;
     year := Some 0%Z;
     aired := AiredObject (Some (py "2002-10-03T00:00:00+00:00")) |}.

(** A sequel whose title holds the title of the first series. *)
Definition shippuden_record : AnimeRecord :=
  {| title := py "Naruto: Shippuuden";
     title_english := Some (py "Naruto Shippuden");
     title_japanese := None;
     year := Some 2007%Z;
     aired := AiredObject (Some (py "2007-02-15T00:00:00+00:00")) |}.

(** A world that gives one answer to every page request and one to every
    query, and whose comment stripper finds nothing to strip. *)
Definition serve (answer_page : result Response)
           (answer_query : result ClientResponse) : Env :=
  {| client_get := fun _ _ => answer_page;
     session_get := fun _ _ => answer_query;
     remove_some_js_comments := fun s => s |}.

Definition found_records (l : list AnimeRecord) : result ClientResponse :=
  Ok {| status := 200%Z; json := Ok l |}.

Definition not_found : result Response :=
  Ok {| is_success := false; text := py "Not Found" |}.

Definition found_page (body : str) : result Response :=
  Ok {| is_success := true; text := body |}.

(** A page body with two declarations, one on each line of a script. *)
Definition season_one : Declaration :=
  {| d_name := py "Saison 1"; d_spaces := 1;
     d_link := py "saison1/"; d_marker := Vostfr |}.

Definition film : Declaration :=
  {| d_name := py "Film"; d_spaces := 0;
     d_link := py "film/"; d_marker := Vf |}.

Definition sample_page : str :=
  document (py "<script>" ++ [newline])
           [(season_one, [newline]); (film, newline :: py "</script>")].


(** A page request that raises. *)
Definition unreachable : result Response := Raise TransportError.

(** A page body with the three labelled fields. *)
Definition fields_page : str :=
  py "<p>Avancement : <a>Saison 2</a></p>" ++ [newline] ++
  py "<p>Correspondance : <a>Episode 12</a></p>" ++ [newline] ++
  py "<h2>Synopsis</h2>" ++ [newline] ++
  py "<p>A <b>ninja</b> story.</p>" ++ [newline].

(** The entity [naruto] with that page cached. *)
Definition naruto_read : Catalogue := with_page fields_page naruto.

(** A table of flags without an entry for [VOSTFR]. *)
Definition sample_flags (lang : str) : option str :=
  if str_eqb lang (py "VF") then Some (py "FR")
  else if str_eqb lang (py "VA") then Some (py "EN")
  else None.

(** An entity with two alternate names and three languages. *)
Definition naruto_aliased : Catalogue :=
  {| url := naruto_url;
     site_url := py "https://anime-sama.fr/";
     name := py "Naruto";
     _raw_name := py "naruto";
     _page := None;
     _name_with_year := None;
     alternative_names := [py "Naruto"; py "NARUTO"];
     genres := [];
     categories := [Anime; Film];
     languages := [py "VOSTFR"; py "VF"; py "VA"];
     image_url := [] |}.

(** A record without any title. *)
Definition untitled_record : AnimeRecord :=
  {| title := [];
     title_english := None;
     title_japanese := Some [];
     year := Some 2002%Z;
     aired := AiredAbsent |}.

(** * Properties *)

(** ** Strings *)

Lemma str_eqb_eq (a b : str) : str_eqb a b = true <-> a = b.
Proof.
  revert b; induction a as [|x a IH]; intros [|y b]; simpl; split;
    try congruence; try reflexivity.
  - intros H. apply andb_true_iff in H as [Hxy Hab].
    apply Ascii.eqb_eq in Hxy. apply IH in Hab. congruence.
  - intros H. injection H as -> ->.
    rewrite Ascii.eqb_refl. simpl. now apply IH.
Qed.

Lemma str_eqb_refl (a : str) : str_eqb a a = true.
Proof. now apply str_eqb_eq. Qed.

Lemma starts_with_app (p s : str) : starts_with p (p ++ s) = true.
Proof.
  induction p as [|x p IH]; simpl; [reflexivity|].
  now rewrite Ascii.eqb_refl.
Qed.

Lemma starts_with_iff (p s : str) :
  starts_with p s = true <-> exists t, s = p ++ t.
Proof.
  split.
  - revert s; induction p as [|x p IH]; intros s H; simpl in *.
    + now exists s.
    + destruct s as [|y s]; [discriminate|].
      apply andb_true_iff in H as [Hxy Hps].
      apply Ascii.eqb_eq in Hxy. subst y.
      destruct (IH _ Hps) as [t ->]. now exists t.
  - intros [t ->]. apply starts_with_app.
Qed.

Lemma skipn_length_app {A} (p s : list A) : skipn (length p) (p ++ s) = s.
Proof. induction p; simpl; auto. Qed.

Lemma contains_unfold (x y : str) :
  contains x y =
  starts_with x y || match y with [] => false | _ :: y' => contains x y' end.
Proof. destruct y; reflexivity. Qed.

Lemma contains_iff (x y : str) : contains x y = true <-> substring x y.
Proof.
  split.
  - induction y as [|c y IH]; rewrite contains_unfold; intros H;
      apply orb_true_iff in H as [H|H]; try discriminate.
    + apply starts_with_iff in H as [t Ht]. exists [], t. exact Ht.
    + apply starts_with_iff in H as [t Ht]. exists [], t. exact Ht.
    + destruct (IH H) as (pre & post & ->). now exists (c :: pre), post.
  - intros (pre & post & ->). induction pre as [|c pre IH].
    + rewrite contains_unfold. apply orb_true_iff. left.
      apply (starts_with_app x post).
    + rewrite contains_unfold. apply orb_true_iff. now right.
Qed.

(** ** The constructor *)

Lemma split_nonempty (sep : ascii) (s : str) : split sep s <> [].
Proof.
  destruct s as [|c s]; simpl; [discriminate|].
  destruct (Ascii.eqb c sep); [discriminate|].
  destruct (split sep s); discriminate.
Qed.

(** [split] yields a second segment exactly when the separator occurs. *)
Lemma split_length_ge_2 (sep : ascii) (s : str) :
  2 <= length (split sep s) <-> In sep s.
Proof.
  induction s as [|c s IH]; simpl.
  - split; [lia | tauto].
  - destruct (Ascii.eqb_spec c sep) as [->|Hne].
    + simpl. pose proof (split_nonempty sep s).
      destruct (split sep s); [congruence|]. simpl. split; [auto | lia].
    + pose proof (split_nonempty sep s).
      destruct (split sep s) as [|seg segs] eqn:E; [congruence|].
      simpl in *. rewrite IH. split; [auto | intros [?|?]; congruence].
Qed.

Lemma neg_index_ok_iff {A} (l : list A) (k : nat) :
  (exists a, neg_index l (S k) = Ok a) <-> S k <= length l.
Proof.
  unfold neg_index. simpl. rewrite Nat.sub_0_r.
  destruct (nth_error (rev l) k) eqn:E.
  - split; [|eauto]. intros _.
    assert (k < length (rev l)) by (apply nth_error_Some; congruence).
    rewrite length_rev in *. lia.
  - split; [intros [a Ha]; discriminate|].
    apply nth_error_None in E. rewrite length_rev in E. lia.
Qed.

Lemma neg_index_last {A} (l : list A) (a : A) : neg_index (l ++ [a]) 1 = Ok a.
Proof. unfold neg_index. now rewrite rev_app_distr. Qed.

Lemma neg_index_1_cases (s : str) :
  (s = [] /\ neg_index s 1 = Raise IndexError) \/
  (exists s' c, s = s' ++ [c] /\ neg_index s 1 = Ok c).
Proof.
  destruct s as [|x s] using rev_ind.
  - left. split; reflexivity.
  - right. exists s, x. split; [reflexivity | apply neg_index_last].
Qed.

(** The canonical URL: the argument, with a separator added when it lacks
    one. *)
Lemma init_url u n alts g cats langs img c :
  __init__ u n alts g cats langs img = Ok c ->
  exists u' last, u = u' ++ [last] /\
    url c = if Ascii.eqb last "/"%char then u else u ++ py "/".
Proof.
  unfold __init__. intros H.
  destruct (neg_index_1_cases u) as [[-> _]|(u' & last & -> & E)];
    [discriminate|].
  rewrite E in H. simpl in H.
  destruct (if truthy n then _ else _) as [nm|]; simpl in H; [|discriminate].
  injection H as <-. simpl. exists u', last. split; [reflexivity|].
  now destruct (Ascii.eqb last "/"%char).
Qed.

Lemma split_no_sep (sep : ascii) (s : str) : ~ In sep s -> split sep s = [s].
Proof.
  induction s as [|c s IH]; simpl; intros H; [reflexivity|].
  destruct (Ascii.eqb_spec c sep) as [->|Hne]; [tauto|].
  rewrite IH by tauto. reflexivity.
Qed.

Lemma split_app_sep (sep : ascii) (pre rest : str) :
  split sep (pre ++ sep :: rest) = split sep pre ++ split sep rest.
Proof.
  induction pre as [|c pre IH]; simpl.
  - now rewrite Ascii.eqb_refl.
  - destruct (Ascii.eqb c sep); [now rewrite IH|].
    rewrite IH. pose proof (split_nonempty sep pre).
    destruct (split sep pre); [congruence | reflexivity].
Qed.

Lemma neg_index_2_snoc {A} (l : list A) (a b : A) :
  neg_index (l ++ [a; b]) 2 = Ok a.
Proof. unfold neg_index. now rewrite rev_app_distr. Qed.

(** With a trailing separator, the segment before it is the slug. *)
Lemma slug_of_closed_url (base slug : str) :
  ~ In "/"%char slug ->
  neg_index (split "/"%char (base ++ py "/" ++ slug ++ py "/")) 2 = Ok slug.
Proof.
  intros H. change (py "/") with ["/"%char]. simpl ([_] ++ _).
  rewrite split_app_sep. rewrite split_app_sep.
  rewrite (split_no_sep _ slug H). simpl (split _ []).
  apply neg_index_2_snoc.
Qed.

(** Without it, the segment the constructor reads is the parent of the
    slug. *)
Lemma slug_of_bare_url (base parent slug : str) :
  ~ In "/"%char parent -> ~ In "/"%char slug ->
  neg_index (split "/"%char (base ++ py "/" ++ parent ++ py "/" ++ slug)) 2
  = Ok parent.
Proof.
  intros Hp Hs. change (py "/") with ["/"%char]. simpl ([_] ++ _).
  rewrite split_app_sep. rewrite split_app_sep.
  rewrite (split_no_sep _ parent Hp), (split_no_sep _ slug Hs).
  apply neg_index_2_snoc.
Qed.

(** The names the constructor stores, when it returns. *)
Lemma init_names u n alts g cats langs img c :
  __init__ u n alts g cats langs img = Ok c ->
  (if truthy n then Ok n else neg_index (split "/"%char u) 2)
    = Ok (_raw_name c) /\
  name c = hd (_raw_name c) (or_default alts []) /\
  alternative_names c = or_default alts [] /\
  _page c = None /\ _name_with_year c = None.
Proof.
  unfold __init__. intros H.
  destruct (neg_index u 1) as [last|]; simpl in H; [|discriminate].
  destruct (if truthy n then _ else _) as [nm|]; simpl in H; [|discriminate].
  injection H as <-. simpl. repeat split.
Qed.

(** Without alternate names, the name of the entity is its raw name. *)
Lemma init_name_is_raw_name u n g cats langs img c :
  __init__ u n None g cats langs img = Ok c \/
  __init__ u n (Some []) g cats langs img = Ok c ->
  name c = _raw_name c /\ names_to_try c = [_raw_name c].
Proof.
  intros [H|H]; destruct (init_names _ _ _ _ _ _ _ _ H) as (_ & Hn & Ha & _);
    simpl in Hn, Ha; unfold names_to_try; rewrite Hn, Ha; split; reflexivity.
Qed.

Lemma init_ok_iff u n alts g cats langs img :
  (exists c, __init__ u n alts g cats langs img = Ok c) <->
  u <> [] /\ (n <> [] \/ In "/"%char u).
Proof.
  unfold __init__. split.
  - intros [c H].
    destruct (neg_index_1_cases u) as [[-> _]|(u' & last & -> & E)];
      [discriminate|].
    split; [now destruct u'|]. rewrite E in H. simpl in H.
    destruct n as [|x n]; [|left; discriminate]. right. simpl in H.
    apply split_length_ge_2. apply (neg_index_ok_iff _ 1).
    destruct (neg_index (split "/"%char (u' ++ [last])) 2) as [a|];
      [eauto | discriminate].
  - intros [Hu Hn].
    destruct (neg_index_1_cases u) as [[-> _]|(u' & last & -> & E)];
      [congruence|].
    rewrite E. simpl.
    assert (Hname : exists nm,
      (if truthy n then Ok n else neg_index (split "/"%char (u' ++ [last])) 2)
      = Ok nm).
    { destruct n as [|x n]; simpl; [|eauto].
      destruct Hn as [Hn|Hn]; [congruence|].
      apply (neg_index_ok_iff _ 1). now apply split_length_ge_2. }
    destruct Hname as [nm ->]. simpl. eauto.
Qed.

Lemma init_url_closed u n alts g cats langs img c :
  __init__ u n alts g cats langs img = Ok c ->
  neg_index (url c) 1 = Ok "/"%char.
Proof.
  intros H. destruct (init_url _ _ _ _ _ _ _ _ H) as (u' & last & -> & ->).
  destruct (Ascii.eqb_spec last "/"%char) as [->|_].
  - apply neg_index_last.
  - apply (neg_index_last (u' ++ [last])).
Qed.

(** ** C7: the display name and the slug *)

(** C7. The constructor reads the display name off the second segment from
    the end of the address it is given. For the address with its trailing
    separator that is the slug, ["naruto"]; for the same address without
    the separator it is the parent segment, ["catalogue"], and not the
    slug, although both addresses give one canonical URL. *)
Theorem C7_bare_url_names_the_parent_segment :
  exists closed bare,
    __init__ naruto_url [] None None None None [] = Ok closed /\
    __init__ naruto_url_bare [] None None None None [] = Ok bare /\
    url closed = url bare /\
    name closed = py "naruto" /\
    name bare = py "catalogue" /\
    neg_index (split "/"%char naruto_url_bare) 1 = Ok (py "naruto").
Proof.
  eexists. eexists. repeat split; reflexivity.
Qed.

(** ** C8: equality *)

(** C8. Two catalogues are equal exactly when their canonical URLs are:
    [__eq__] reads nothing else, so entities built from one address under
    different names are equal, entities with different canonical URLs never
    are, and a value that is not a catalogue is never equal to one. *)
Theorem C8_eq_iff_same_url :
  (forall c1 c2 : Catalogue,
      __eq__ c1 (PyCatalogue c2) = true <-> url c1 = url c2) /\
  (forall u n1 n2 a1 a2 g1 g2 k1 k2 l1 l2 i1 i2 c1 c2,
      __init__ u n1 a1 g1 k1 l1 i1 = Ok c1 ->
      __init__ u n2 a2 g2 k2 l2 i2 = Ok c2 ->
      __eq__ c1 (PyCatalogue c2) = true) /\
  (forall c1 c2 : Catalogue,
      url c1 <> url c2 -> __eq__ c1 (PyCatalogue c2) = false).
Proof.
  split; [|split].
  - intros c1 c2. apply str_eqb_eq.
  - intros u n1 n2 a1 a2 g1 g2 k1 k2 l1 l2 i1 i2 c1 c2 H1 H2.
    apply str_eqb_eq.
    destruct (init_url _ _ _ _ _ _ _ _ H1) as (u1 & x1 & E1 & ->).
    destruct (init_url _ _ _ _ _ _ _ _ H2) as (u2 & x2 & E2 & ->).
    rewrite E1 in E2. apply app_inj_tail in E2 as [_ <-]. reflexivity.
  - intros c1 c2 H. simpl. destruct (str_eqb (url c1) (url c2)) eqn:E;
      [|reflexivity]. apply str_eqb_eq in E. contradiction.
Qed.

(** ** C9: when the constructor returns *)

(** C9. The constructor raises on the empty address, and the canonical URL
    of every entity it returns ends with the separator. It returns on
    every address that is not empty when it is given a name, and when it is
    given none on every such address that holds a separator. On the
    address ["abc"], which is not empty and holds none, it raises when it is
    given no name: it reads the name off the second segment from the end of
    the address as given, which has one segment only, where the canonical
    URL ["abc/"] has two and gives the name ["abc"]. *)
Theorem C9_separator_free_url_raises :
  (forall n alts g cats langs img,
     __init__ [] n alts g cats langs img = Raise IndexError) /\
  (forall u n alts g cats langs img c,
     __init__ u n alts g cats langs img = Ok c ->
     neg_index (url c) 1 = Ok "/"%char) /\
  (forall u n alts g cats langs img,
     u <> [] -> n <> [] \/ In "/"%char u ->
     exists c, __init__ u n alts g cats langs img = Ok c) /\
  py "abc" <> [] /\
  __init__ (py "abc") [] None None None None [] = Raise IndexError /\
  neg_index (split "/"%char (py "abc")) 2 = Raise IndexError /\
  neg_index (split "/"%char (py "abc/")) 2 = Ok (py "abc") /\
  (exists c, __init__ (py "abc/") [] None None None None [] = Ok c /\
             url c = py "abc/" /\ name c = py "abc").
Proof.
  split; [reflexivity|]. split; [apply init_url_closed|]. split.
  - intros u n alts g cats langs img Hu Hn. apply init_ok_iff. now split.
  - split; [discriminate|]. split; [reflexivity|]. split; [reflexivity|].
    split; [reflexivity|]. eexists. repeat split; reflexivity.
Qed.

(** ** The page cache *)

Lemma page_cached env c h p :
  _page c = Some p -> page env c h = (Ok p, c, h).
Proof. intros H. unfold page, bind, get_self. now rewrite H. Qed.

Lemma page_fresh env c h :
  _page c = None ->
  page env c h =
  match client_get env h (url c) with
  | Ok response =>
      let p := if is_success response then text response else [] in
      (Ok p, with_page p c, h ++ [ClientGet (url c)])
  | Raise e => (Raise e, c, h ++ [ClientGet (url c)])
  end.
Proof.
  intros H. unfold page, bind, get_self, await_client_get. rewrite H.
  destruct (client_get env h (url c)) as [response|e]; [|reflexivity].
  unfold set_page, ret. simpl. now destruct (is_success response).
Qed.

(** ** The resolver, one candidate at a time *)

Lemma attempt_spec n env c h :
  try_except (try_name n) (fun _ => ret None) env c h =
  let found := answer n (session_get env h (query_url n)) in
  (Ok found,
   match found with
   | Some full => with_name_with_year full c
   | None => c
   end,
   h ++ [SessionGet (query_url n)]).
Proof.
  unfold try_except, try_name, bind, await_session_get, answer, lift,
    set_name_with_year, ret.
  destruct (session_get env h (query_url n)) as [resp|e]; [|reflexivity].
  destruct (Z.eqb (status resp) 200); [|reflexivity].
  destruct (json resp) as [animes|e]; [|reflexivity].
  now destruct (first_match n animes) as [[full|]|e].
Qed.

Lemma try_names_cons n rest env c h :
  try_names (n :: rest) env c h =
  match answer n (session_get env h (query_url n)) with
  | Some full =>
      (Ok (Some full), with_name_with_year full c,
       h ++ [SessionGet (query_url n)])
  | None => try_names rest env c (h ++ [SessionGet (query_url n)])
  end.
Proof.
  change (try_names (n :: rest)) with
    (bind (try_except (try_name n) (fun _ => ret None))
          (fun found =>
             match found with
             | Some full => ret (Some full)
             | None => try_names rest
             end)).
  unfold bind at 1. rewrite attempt_spec. simpl.
  now destruct (answer n (session_get env h (query_url n))).
Qed.

(** No candidate draws a name: the loop asks for each in turn and leaves the
    object as it was. *)
Lemma try_names_none env c names : forall h,
  (forall i n, nth_error names i = Some n ->
     answer n (session_get env (h ++ queries (firstn i names)) (query_url n))
     = None) ->
  try_names names env c h = (Ok None, c, h ++ queries names).
Proof.
  induction names as [|n rest IH]; intros h H.
  - simpl. unfold ret. now rewrite app_nil_r.
  - rewrite try_names_cons.
    pose proof (H 0 n eq_refl) as H0. simpl in H0. rewrite app_nil_r in H0.
    rewrite H0. rewrite IH.
    + simpl. now rewrite <- app_assoc.
    + intros i m Hi. specialize (H (S i) m Hi). simpl in H.
      now rewrite <- app_assoc.
Qed.

(** The first candidate that draws a name ends the loop: the candidates
    after it are not asked for. *)
Lemma try_names_found env c pre n post full : forall h,
  (forall i m, nth_error pre i = Some m ->
     answer m (session_get env (h ++ queries (firstn i pre)) (query_url m))
     = None) ->
  answer n (session_get env (h ++ queries pre) (query_url n)) = Some full ->
  try_names (pre ++ n :: post) env c h =
  (Ok (Some full), with_name_with_year full c, h ++ queries (pre ++ [n])).
Proof.
  induction pre as [|m pre IH]; intros h Hpre Hn.
  - simpl in Hn. rewrite app_nil_r in Hn. simpl app.
    rewrite try_names_cons, Hn. reflexivity.
  - simpl app. rewrite try_names_cons.
    pose proof (Hpre 0 m eq_refl) as H0. simpl in H0. rewrite app_nil_r in H0.
    rewrite H0. rewrite IH.
    + simpl. now rewrite <- app_assoc.
    + intros i k Hi. specialize (Hpre (S i) k Hi). simpl in Hpre.
      now rewrite <- app_assoc.
    + simpl in Hn. now rewrite <- app_assoc.
Qed.

(** Whatever the answers, the loop asks for a prefix of its candidates, in
    order, and touches nothing of the object but the cached name. *)
Lemma try_names_frame env c names : forall h,
  exists found k,
    try_names names env c h =
    (Ok found,
     match found with
     | Some full => with_name_with_year full c
     | None => c
     end,
     h ++ queries (firstn k names)).
Proof.
  induction names as [|n rest IH]; intros h.
  - exists None, 0. simpl. unfold ret. now rewrite app_nil_r.
  - rewrite try_names_cons.
    destruct (answer n (session_get env h (query_url n))) as [full|].
    + exists (Some full), 1. reflexivity.
    + destruct (IH (h ++ [SessionGet (query_url n)])) as (found & k & E).
      exists found, (S k). rewrite E. simpl. now rewrite <- app_assoc.
Qed.

Lemma get_name_with_year_cached env c h full :
  _name_with_year c = Some full ->
  get_name_with_year env c h = (Ok full, c, h).
Proof.
  intros H. unfold get_name_with_year, bind, get_self. now rewrite H.
Qed.

Lemma get_name_with_year_fresh env c h :
  _name_with_year c = None ->
  get_name_with_year env c h =
  match try_names (names_to_try c) env c h with
  | (Ok (Some full), c', h') => (Ok full, c', h')
  | (Ok None, c', h') => (Ok (name c), with_name_with_year (name c) c', h')
  | (Raise e, c', h') => (Raise e, c', h')
  end.
Proof.
  intros H. unfold get_name_with_year, bind, get_self. rewrite H.
  destruct (try_names (names_to_try c) env c h) as [[[[full|]|e] c'] h'];
    reflexivity.
Qed.

(** [get_name_with_year] always returns; it leaves the object with a cached
    name and otherwise unchanged, and asks only the metadata service. *)
Lemma get_name_with_year_frame env c h :
  exists full k,
    get_name_with_year env c h =
    (Ok full, with_name_with_year full c,
     h ++ queries (firstn k (names_to_try c)))
    \/ (_name_with_year c = Some full /\
        get_name_with_year env c h = (Ok full, c, h)).
Proof.
  destruct (_name_with_year c) as [full|] eqn:E.
  - exists full, 0. right. split; [reflexivity|].
    now apply get_name_with_year_cached.
  - rewrite (get_name_with_year_fresh _ _ _ E).
    destruct (try_names_frame env c (names_to_try c) h) as (found & k & ->).
    destruct found as [full|].
    + exists full, k. now left.
    + exists (name c), k. now left.
Qed.

Lemma seasons_unfold env c h :
  seasons env c h =
  match page env c h with
  | (Ok p, c1, h1) =>
      match get_name_with_year env c1 h1 with
      | (Ok full, c2, h2) =>
          (build_seasons (url c2) full
             (findall season_re (remove_some_js_comments env p)), c2, h2)
      | (Raise e, c2, h2) => (Raise e, c2, h2)
      end
  | (Raise e, c1, h1) => (Raise e, c1, h1)
  end.
Proof.
  unfold seasons, bind, ask, get_self, lift.
  destruct (page env c h) as [[[p|e] c1] h1]; [|reflexivity].
  destruct (get_name_with_year env c1 h1) as [[[full|e] c2] h2]; reflexivity.
Qed.

Lemma client_gets_app h1 h2 :
  client_gets (h1 ++ h2) = client_gets h1 ++ client_gets h2.
Proof. apply flat_map_app. Qed.

Lemma client_gets_queries names : client_gets (queries names) = [].
Proof. induction names; simpl; auto. Qed.

Ltac kept :=
  do 2 eexists; (split; [reflexivity|]); repeat split; assumption.

(** Once the page is cached, no method fetches it again or replaces it. *)
Lemma call_keeps_page env k c h p :
  _page c = Some p ->
  exists c' h',
    call k env c h = (Ok tt, c', h') /\
    _page c' = Some p /\ url c' = url c /\ client_gets h' = client_gets h.
Proof.
  intros Hp.
  assert (Hname : exists r c' h',
    get_name_with_year env c h = (r, c', h') /\
    _page c' = Some p /\ url c' = url c /\ client_gets h' = client_gets h).
  { destruct (get_name_with_year_frame env c h) as (full & n & [E|[_ E]]);
      rewrite E; eexists; eexists; eexists; (split; [reflexivity|]).
    - repeat split; [exact Hp|].
      now rewrite client_gets_app, client_gets_queries, app_nil_r.
    - repeat split; exact Hp. }
  destruct k; simpl; unfold discard.
  - rewrite (page_cached _ _ _ _ Hp). kept.
  - rewrite seasons_unfold, (page_cached _ _ _ _ Hp).
    destruct Hname as (r & c' & h' & -> & H1 & H2 & H3).
    destruct r; simpl; kept.
  - unfold advancement, bind. rewrite (page_cached _ _ _ _ Hp). simpl. kept.
  - unfold correspondence, bind. rewrite (page_cached _ _ _ _ Hp). simpl.
    kept.
  - unfold synopsis, bind. rewrite (page_cached _ _ _ _ Hp). simpl. kept.
  - destruct Hname as (r & c' & h' & -> & H1 & H2 & H3). simpl. kept.
Qed.

Lemma call_all_keeps_page env l : forall c h p,
  _page c = Some p ->
  exists c' h',
    call_all l env c h = (Ok tt, c', h') /\
    _page c' = Some p /\ url c' = url c /\ client_gets h' = client_gets h.
Proof.
  induction l as [|k l IH]; intros c h p Hp.
  - exists c, h. simpl. unfold ret. auto.
  - simpl. unfold bind.
    destruct (call_keeps_page env k c h p Hp) as (c1 & h1 & -> & H1 & H2 & H3).
    destruct (IH c1 h1 p H1) as (c2 & h2 & -> & H4 & H5 & H6).
    exists c2, h2. repeat split; congruence.
Qed.

(** ** C1: the page is fetched once *)

(** C1, as stated, fails: when the request of the first call raises, the
    call returns no string and caches nothing, and the second call sends the
    same request again. *)
Lemma C1_counterexample :
  _page naruto = None /\
  page (serve unreachable (found_records [])) naruto []
  = (Raise TransportError, naruto, [ClientGet naruto_url]) /\
  page (serve unreachable (found_records [])) naruto [ClientGet naruto_url]
  = (Raise TransportError, naruto,
     [ClientGet naruto_url; ClientGet naruto_url]).
Proof. repeat split. Qed.

(** C1, amended. On an entity whose page is not cached yet, as the
    constructor leaves it, [page] makes exactly one request, a GET of the
    canonical URL of the entity. When the request is answered, [page]
    returns the body of a successful answer and the empty string for any
    other, without raising, and caches what it returns. From then on, after
    any calls of the public methods, [page] returns the same string, leaves
    the object as it is and makes no request, and no call has fetched
    through the client again. *)
Theorem C1_page_fetch_once env c h :
  _page c = None ->
  snd (page env c h) = h ++ [ClientGet (url c)] /\
  forall response,
    client_get env h (url c) = Ok response ->
    exists p c',
      page env c h = (Ok p, c', h ++ [ClientGet (url c)]) /\
      p = (if is_success response then text response else []) /\
      _page c' = Some p /\
      forall (later : list Call),
      exists c'' h'',
        call_all later env c' (h ++ [ClientGet (url c)]) = (Ok tt, c'', h'') /\
        page env c'' h'' = (Ok p, c'', h'') /\
        client_gets h'' = client_gets h ++ [url c].
Proof.
  intros Hfresh. rewrite (page_fresh _ _ _ Hfresh). split.
  - now destruct (client_get env h (url c)).
  - intros response ->. cbv zeta.
    eexists. eexists. split; [reflexivity|]. split; [reflexivity|].
    split; [reflexivity|]. intros later.
    match goal with |- context [with_page ?p c] => set (q := p) end.
    destruct (call_all_keeps_page env later (with_page q c)
                (h ++ [ClientGet (url c)]) q eq_refl)
      as (c'' & h'' & E & H1 & H2 & H3).
    exists c'', h''. split; [exact E|]. split.
    + now apply page_cached.
    + rewrite H3, client_gets_app. reflexivity.
Qed.

(** ** The resolver *)

Lemma first_match_none n animes :
  first_match n animes = Ok None <->
  forall anime, In anime animes -> record_matches n anime = false.
Proof.
  induction animes as [|a l IH]; simpl.
  - split; [intros _ ? [] | reflexivity].
  - destruct (record_matches n a) eqn:E.
    + split.
      * destruct (year_of a); discriminate.
      * intros H. specialize (H a (or_introl eq_refl)). congruence.
    + rewrite IH. split.
      * intros H x [<-|Hx]; auto.
      * intros H x Hx. apply H. now right.
Qed.

Lemma first_match_at n before anime after y :
  (forall a, In a before -> record_matches n a = false) ->
  record_matches n anime = true ->
  year_of anime = Ok y ->
  first_match n (before ++ anime :: after)
  = Ok (Some (with_year (title anime) y)).
Proof.
  intros Hb Ha Hy. induction before as [|b l IH]; simpl.
  - now rewrite Ha, Hy.
  - rewrite (Hb b (or_introl eq_refl)). apply IH.
    intros a Hin. apply Hb. now right.
Qed.

(** The first record that matches has a year that cannot be read: the loop
    over the records raises, whatever records come after. *)
Lemma first_match_raises n before anime after e :
  (forall a, In a before -> record_matches n a = false) ->
  record_matches n anime = true ->
  year_of anime = Raise e ->
  first_match n (before ++ anime :: after) = Raise e.
Proof.
  intros Hb Ha Hy. induction before as [|b l IH]; simpl.
  - now rewrite Ha, Hy.
  - rewrite (Hb b (or_introl eq_refl)). apply IH.
    intros a Hin. apply Hb. now right.
Qed.

Lemma answer_none_if n r : no_record_matches n r -> answer n r = None.
Proof.
  unfold answer, no_record_matches. intros H. destruct r as [resp|e];
    [|reflexivity].
  destruct (Z.eqb_spec (status resp) 200) as [Hs|Hs]; [|reflexivity].
  destruct (json resp) as [animes|e] eqn:Ej; [|reflexivity].
  now rewrite (proj2 (first_match_none n animes) (H resp animes eq_refl Hs Ej)).
Qed.

Lemma session_gets_app h1 h2 :
  session_gets (h1 ++ h2) = session_gets h1 ++ session_gets h2.
Proof. apply flat_map_app. Qed.

Lemma page_frame env c h :
  exists r c' h',
    page env c h = (r, c', h') /\
    _name_with_year c' = _name_with_year c /\ name c' = name c /\
    session_gets h' = session_gets h.
Proof.
  destruct (_page c) as [p|] eqn:E.
  - rewrite (page_cached _ _ _ _ E). eauto 7.
  - rewrite (page_fresh _ _ _ E).
    destruct (client_get env h (url c)) as [response|e];
      do 3 eexists; (split; [reflexivity|]); repeat split;
      now rewrite session_gets_app, app_nil_r.
Qed.

(** Once the name is resolved, no method asks the service again or
    replaces it. *)
Lemma call_keeps_name env k c h full :
  _name_with_year c = Some full ->
  exists c' h',
    call k env c h = (Ok tt, c', h') /\
    _name_with_year c' = Some full /\ session_gets h' = session_gets h.
Proof.
  intros Hn.
  destruct (page_frame env c h) as (r & c1 & h1 & Ep & H1 & _ & H3).
  rewrite Hn in H1.
  destruct k; simpl; unfold discard.
  - rewrite Ep. eauto.
  - rewrite seasons_unfold, Ep. destruct r as [p|e]; [|eauto].
    rewrite (get_name_with_year_cached _ _ _ _ H1). eauto.
  - unfold advancement, bind. rewrite Ep. destruct r; simpl; eauto.
  - unfold correspondence, bind. rewrite Ep. destruct r; simpl; eauto.
  - unfold synopsis, bind. rewrite Ep. destruct r; simpl; eauto.
  - rewrite (get_name_with_year_cached _ _ _ _ Hn). eauto.
Qed.

Lemma call_all_keeps_name env l : forall c h full,
  _name_with_year c = Some full ->
  exists c' h',
    call_all l env c h = (Ok tt, c', h') /\
    _name_with_year c' = Some full /\ session_gets h' = session_gets h.
Proof.
  induction l as [|k l IH]; intros c h full Hn.
  - exists c, h. simpl. unfold ret. auto.
  - simpl. unfold bind.
    destruct (call_keeps_name env k c h full Hn) as (c1 & h1 & -> & H1 & H2).
    destruct (IH c1 h1 full H1) as (c2 & h2 & -> & H4 & H5).
    exists c2, h2. repeat split; congruence.
Qed.

(** ** C3: the fallback when nothing matches *)

(** C3. On an entity whose name is not resolved yet, when the answer to the
    query for each candidate name holds no record that matches it,
    [get_name_with_year] asks for every candidate in order, returns the
    name of the entity as it stands and caches it. From then on, after any
    calls of the public methods, [get_name_with_year] returns the same
    string, leaves the object as it is and makes no request, and no call
    has asked the metadata service again. *)
Theorem C3_no_match_falls_back env c h :
  _name_with_year c = None ->
  (forall i n, nth_error (names_to_try c) i = Some n ->
     no_record_matches n
       (session_get env (h ++ queries (firstn i (names_to_try c)))
                    (query_url n))) ->
  exists c',
    get_name_with_year env c h
      = (Ok (name c), c', h ++ queries (names_to_try c)) /\
    _name_with_year c' = Some (name c) /\
    name c' = name c /\
    forall (later : list Call),
    exists c'' h'',
      call_all later env c' (h ++ queries (names_to_try c))
        = (Ok tt, c'', h'') /\
      get_name_with_year env c'' h'' = (Ok (name c), c'', h'') /\
      session_gets h'' = session_gets (h ++ queries (names_to_try c)).
Proof.
  intros Hfresh Hnone.
  rewrite (get_name_with_year_fresh _ _ _ Hfresh).
  rewrite try_names_none.
  2:{ intros i n Hi. apply answer_none_if. now apply Hnone. }
  eexists. split; [reflexivity|]. split; [reflexivity|].
  split; [reflexivity|]. intros later.
  destruct (call_all_keeps_name env later (with_name_with_year (name c) c)
              (h ++ queries (names_to_try c)) (name c) eq_refl)
    as (c'' & h'' & E & H1 & H2).
  exists c'', h''. split; [exact E|]. split; [|exact H2].
  now apply get_name_with_year_cached.
Qed.

(** ** C6: the name of the first match *)

(** The year of a record can be read unless the year field is absent,
    [null] or zero and the entry [aired] is [null]. *)
Lemma year_of_ok (anime : AnimeRecord) :
  (year anime = None \/ year anime = Some 0%Z -> aired anime <> AiredNull) ->
  exists y, year_of anime = Ok y.
Proof.
  intros H. unfold year_of.
  assert (Hfrom : aired anime <> AiredNull ->
    exists y,
      match aired anime with
      | AiredAbsent => Ok (YearStr [])
      | AiredNull => Raise AttributeError
      | AiredObject (Some from) =>
          if truthy from then Ok (YearStr (firstn 4 from))
          else Ok (YearStr [])
      | AiredObject None => Ok (YearStr [])
      end = Ok y).
  { destruct (aired anime) as [| |[from|]]; try congruence; eauto.
    destruct (truthy from); eauto. }
  destruct (year anime) as [y|]; [|now apply Hfrom, H; left].
  destruct (Z.eqb_spec y 0) as [->|_]; [now apply Hfrom, H; right | eauto].
Qed.

Lemma year_of_null_aired (anime : AnimeRecord) :
  year anime = None \/ year anime = Some 0%Z ->
  aired anime = AiredNull ->
  year_of anime = Raise AttributeError.
Proof. unfold year_of. intros [-> | ->] ->; reflexivity. Qed.

Lemma with_year_cases (anime : AnimeRecord) (y : YearValue) :
  year_of anime = Ok y ->
  let full := with_year (title anime) y in
  (forall n, year anime = Some n -> n <> 0%Z ->
     full = title anime ++ py " (" ++ str_of_int n ++ py ")") /\
  (year anime = None \/ year anime = Some 0%Z ->
   forall from, aired anime = AiredObject (Some from) -> from <> [] ->
     full = title anime ++ py " (" ++ firstn 4 from ++ py ")") /\
  (year anime = None \/ year anime = Some 0%Z ->
   aired anime = AiredAbsent \/ aired anime = AiredObject None \/
   aired anime = AiredObject (Some []) ->
     full = title anime).
Proof.
  intros Hy. cbv zeta. repeat split.
  - intros n Hn Hnz. unfold year_of in Hy. rewrite Hn in Hy.
    apply Z.eqb_neq in Hnz. rewrite Hnz in Hy. injection Hy as <-.
    simpl. now rewrite Hnz.
  - intros Hn from Hf Hne. unfold year_of in Hy. rewrite Hf in Hy.
    destruct from as [|x from]; [congruence|].
    destruct Hn as [Hn|Hn]; rewrite Hn in Hy; injection Hy as <-;
      reflexivity.
  - intros Hn Hf. unfold year_of in Hy.
    destruct Hn as [Hn|Hn], Hf as [Hf|[Hf|Hf]]; rewrite Hn, Hf in Hy;
      injection Hy as <-; reflexivity.
Qed.

(** A record that matches but whose year cannot be read ends the turn of
    its candidate: the exception is caught and the loop goes on with the
    next candidate, whatever records come after in the answer. *)
Lemma null_aired_abandons_candidate env c h n rest resp before anime after :
  session_get env h (query_url n) = Ok resp ->
  status resp = 200%Z ->
  json resp = Ok (before ++ anime :: after) ->
  (forall a, In a before -> record_matches n a = false) ->
  record_matches n anime = true ->
  year anime = None \/ year anime = Some 0%Z ->
  aired anime = AiredNull ->
  try_names (n :: rest) env c h
  = try_names rest env c (h ++ [SessionGet (query_url n)]).
Proof.
  intros Hresp Hstatus Hjson Hbefore Hmatch Hyear Haired.
  rewrite try_names_cons, Hresp. unfold answer. rewrite Hstatus, Hjson.
  simpl Z.eqb. cbv iota.
  now rewrite (first_match_raises n before anime after AttributeError
                 Hbefore Hmatch (year_of_null_aired anime Hyear Haired)).
Qed.

(** C6, as stated, fails, twice. A record whose year field is zero and
    whose start date is 2002-10-03 resolves to the title with the year of
    the start date, not with the year field. And a response that holds the
    record titled ["Naruto"] of the year 2002 after a record that matches
    the candidate ["Naruto"] too resolves to the name of that earlier
    record, not to ["Naruto (2002)"]. *)
Lemma C6_counterexample :
  (year zero_year_record = Some 0%Z /\
   get_name_with_year (serve not_found (found_records [zero_year_record]))
                      naruto []
   = (Ok (py "Naruto (2002)"),
      with_name_with_year (py "Naruto (2002)") naruto,
      queries [py "Naruto"]) /\
   py "Naruto (2002)"
   <> title zero_year_record ++ py " (" ++ str_of_int 0 ++ py ")") /\
  (In naruto_record [shippuden_record; naruto_record] /\
   get_name_with_year
     (serve not_found (found_records [shippuden_record; naruto_record]))
     naruto []
   = (Ok (py "Naruto: Shippuuden (2007)"),
      with_name_with_year (py "Naruto: Shippuuden (2007)") naruto,
      queries [py "Naruto"])).
Proof.
  split; split.
  - reflexivity.
  - split; [vm_compute; reflexivity|]. vm_compute. discriminate.
  - right. now left.
  - vm_compute. reflexivity.
Qed.

(** C6, amended. The candidates are asked for in order; at the first one
    whose answer holds a record that matches, and at the first such record
    of that answer, provided its year can be read (its year field is there
    and not zero, or its entry [aired] is absent or an object),
    [get_name_with_year] returns at once and caches what it returns, and
    no later candidate is asked for. The name it returns is the default
    title of the record, followed by a year in brackets when there is one:
    the year field when it is there and not zero; otherwise the first four
    characters of the start date when it is there and not empty; otherwise
    the title alone. *)
Theorem C6_first_match_resolves env c h pre n post resp before anime after :
  _name_with_year c = None ->
  names_to_try c = pre ++ n :: post ->
  (forall i m, nth_error pre i = Some m ->
     no_record_matches m
       (session_get env (h ++ queries (firstn i pre)) (query_url m))) ->
  session_get env (h ++ queries pre) (query_url n) = Ok resp ->
  status resp = 200%Z ->
  json resp = Ok (before ++ anime :: after) ->
  (forall a, In a before -> record_matches n a = false) ->
  record_matches n anime = true ->
  (year anime = None \/ year anime = Some 0%Z -> aired anime <> AiredNull) ->
  exists full,
    get_name_with_year env c h
      = (Ok full, with_name_with_year full c, h ++ queries (pre ++ [n])) /\
    (forall y, year anime = Some y -> y <> 0%Z ->
       full = title anime ++ py " (" ++ str_of_int y ++ py ")") /\
    (year anime = None \/ year anime = Some 0%Z ->
     forall from, aired anime = AiredObject (Some from) -> from <> [] ->
       full = title anime ++ py " (" ++ firstn 4 from ++ py ")") /\
    (year anime = None \/ year anime = Some 0%Z ->
     aired anime = AiredAbsent \/ aired anime = AiredObject None \/
     aired anime = AiredObject (Some []) ->
       full = title anime).
Proof.
  intros Hfresh Hnames Hpre Hresp Hstatus Hjson Hbefore Hmatch Hread.
  destruct (year_of_ok anime Hread) as [y Hy].
  exists (with_year (title anime) y).
  split; [|now apply with_year_cases].
  rewrite (get_name_with_year_fresh _ _ _ Hfresh), Hnames.
  rewrite (try_names_found env c pre n post (with_year (title anime) y)).
  - reflexivity.
  - intros i m Hi. apply answer_none_if. now apply Hpre.
  - rewrite Hresp. unfold answer. rewrite Hstatus, Hjson. simpl Z.eqb.
    cbv iota. now rewrite (first_match_at n before anime after y).
Qed.

(** ** C10: the candidate names *)

(** The loop asks for its first candidate whatever the answers. *)
Lemma try_names_asks_first env c n rest h :
  exists found k,
    try_names (n :: rest) env c h =
    (Ok found,
     match found with
     | Some full => with_name_with_year full c
     | None => c
     end,
     h ++ queries (firstn (S k) (n :: rest))).
Proof.
  rewrite try_names_cons.
  destruct (answer n (session_get env h (query_url n))) as [full|].
  - exists (Some full), 0. reflexivity.
  - destruct (try_names_frame env c rest (h ++ [SessionGet (query_url n)]))
      as (found & k & E).
    exists found, k. rewrite E. simpl. now rewrite <- app_assoc.
Qed.

(** C10, as stated, fails. An entity built from the address of the sample
    with no name and the alternate name ["naruto"] has the raw name
    ["naruto"], and the resolver asks for it. An entity built with the
    alternate names ["Naruto"; "Naruto"] has three candidates, and when no
    answer holds a record the resolver asks for the first alternate name
    three times. *)
Lemma C10_counterexample :
  (exists c,
     __init__ naruto_url [] (Some [py "naruto"]) None None None [] = Ok c /\
     _raw_name c = py "naruto" /\
     get_name_with_year (serve not_found (found_records [])) c []
     = (Ok (py "naruto"), with_name_with_year (py "naruto") c,
        [SessionGet (query_url (_raw_name c));
         SessionGet (query_url (_raw_name c))])) /\
  (exists c,
     __init__ naruto_url (py "naruto") (Some [py "Naruto"; py "Naruto"])
              None None None [] = Ok c /\
     get_name_with_year (serve not_found (found_records [])) c []
     = (Ok (py "Naruto"), with_name_with_year (py "Naruto") c,
        [SessionGet (query_url (py "Naruto"));
         SessionGet (query_url (py "Naruto"));
         SessionGet (query_url (py "Naruto"))])).
Proof.
  split; eexists; repeat split; reflexivity.
Qed.

(** C10, amended. An entity built with at least one alternate name shows
    the first of them as its name, and its candidates are that first
    alternate name followed by all the alternate names in order. Every
    candidate is one of the alternate names, so the raw name is asked for
    only when it is one of them. [get_name_with_year] asks for the
    candidates in that order and for the first of them at least. When no
    answer draws a name it asks for every candidate, the first alternate
    name once more than it stands among the alternate names, and returns
    and caches the first alternate name; it stops at the first candidate
    whose answer draws a name, and returns and caches that name. An answer
    draws a name, [answer], when it comes with status 200, decodes, and
    holds a record that matches the candidate, and the year of the first
    such record can be read. *)
Theorem C10_candidates_repeat_first_alternate
        u n first rest g cats langs img c :
  __init__ u n (Some (first :: rest)) g cats langs img = Ok c ->
  name c = first /\
  names_to_try c = first :: first :: rest /\
  (forall m, In m (names_to_try c) -> In m (first :: rest)) /\
  (forall env h, exists full k,
     get_name_with_year env c h
     = (Ok full, with_name_with_year full c,
        h ++ queries (firstn (S k) (first :: first :: rest)))) /\
  (forall env h,
     (forall i m, nth_error (first :: first :: rest) i = Some m ->
        answer m (session_get env
                    (h ++ queries (firstn i (first :: first :: rest)))
                    (query_url m)) = None) ->
     get_name_with_year env c h
     = (Ok first, with_name_with_year first c,
        h ++ queries (first :: first :: rest))) /\
  (forall env h pre m post full,
     first :: first :: rest = pre ++ m :: post ->
     (forall i x, nth_error pre i = Some x ->
        answer x (session_get env (h ++ queries (firstn i pre)) (query_url x))
        = None) ->
     answer m (session_get env (h ++ queries pre) (query_url m)) = Some full ->
     get_name_with_year env c h
     = (Ok full, with_name_with_year full c, h ++ queries (pre ++ [m]))).
Proof.
  intros H.
  destruct (init_names _ _ _ _ _ _ _ _ H) as (_ & Hn & Ha & _ & Hfresh).
  simpl in Hn, Ha.
  assert (Hl : names_to_try c = first :: first :: rest).
  { unfold names_to_try. now rewrite Hn, Ha. }
  split; [exact Hn|]. split; [exact Hl|]. split; [|split; [|split]].
  - rewrite Hl. intros m [<-|Hm]; [now left | exact Hm].
  - intros env h. rewrite (get_name_with_year_fresh _ _ _ Hfresh), Hl.
    destruct (try_names_asks_first env c first (first :: rest) h)
      as (found & k & ->).
    destruct found as [full|].
    + now exists full, k.
    + exists first, k. now rewrite Hn.
  - intros env h Hnone.
    rewrite (get_name_with_year_fresh _ _ _ Hfresh), Hl.
    rewrite (try_names_none _ _ _ _ Hnone). now rewrite Hn.
  - intros env h pre m post full E Hpre Hm.
    rewrite (get_name_with_year_fresh _ _ _ Hfresh), Hl, E.
    now rewrite (try_names_found _ _ _ _ _ _ _ Hpre Hm).
Qed.

(** ** The normalizer *)

Lemma special_re_sub (s : str) :
  re_sub special_re [] s = filter word_or_space s.
Proof.
  unfold re_sub. induction s as [|c s IH]; [reflexivity|].
  unfold scan; fold scan. unfold match_here, special_re, rmatch.
  unfold cmatch, existsb, word_or_space in *.
  rewrite orb_false_r. simpl filter.
  destruct (is_word c || is_space c); simpl negb; cbv iota.
  - simpl. f_equal. exact IH.
  - simpl length. rewrite Nat.sub_succ_l, Nat.sub_diag by lia.
    simpl. exact IH.
Qed.

Lemma normalize_filter (s : str) :
  normalize s = filter word_or_space (strip (lower s)).
Proof. apply special_re_sub. Qed.

Lemma lower_char_not_upper (c : ascii) : is_upper (lower_char c) = false.
Proof. destruct c as [[] [] [] [] [] [] [] []]; reflexivity. Qed.

(** Lowering leaves a character that is already lower as it is. *)
Lemma lower_char_fixed (c : ascii) : is_upper c = false -> lower_char c = c.
Proof. unfold lower_char. now intros ->. Qed.

Lemma lstrip_split (s : str) :
  exists l, s = l ++ lstrip s /\ Forall (fun c => is_space c = true) l /\
            (forall c t, lstrip s = c :: t -> is_space c = false).
Proof.
  induction s as [|x s (l & E & Hl & Hh)]; simpl.
  - exists []. repeat split; [constructor | discriminate].
  - destruct (is_space x) eqn:Ex.
    + exists (x :: l). repeat split;
        [simpl; now f_equal | now constructor | exact Hh].
    + exists []. repeat split; [constructor|]. now intros c t [= <- _].
Qed.

(** [strip] takes whitespace off both ends, and all of it. *)
Lemma strip_split (s : str) :
  exists l r,
    s = l ++ strip s ++ r /\
    Forall (fun c => is_space c = true) l /\
    Forall (fun c => is_space c = true) r /\
    (forall c t, strip s = c :: t -> is_space c = false) /\
    (forall t c, strip s = t ++ [c] -> is_space c = false).
Proof.
  unfold strip.
  destruct (lstrip_split s) as (l & El & Hl & Hhead).
  destruct (lstrip_split (rev (lstrip s))) as (r & Er & Hr & Hlast).
  set (m := lstrip s) in *. set (m2 := lstrip (rev m)) in *.
  assert (Em : m = rev m2 ++ rev r).
  { rewrite <- rev_app_distr, <- Er. now rewrite rev_involutive. }
  exists l, (rev r). repeat split.
  - now rewrite <- Em.
  - exact Hl.
  - now apply Forall_rev.
  - intros c t E. rewrite E in Em. simpl in Em. eapply Hhead. exact Em.
  - intros t c E. apply (f_equal (@rev ascii)) in E.
    rewrite rev_involutive, rev_app_distr in E. simpl in E.
    eapply Hlast. exact E.
Qed.

Lemma in_strip (c : ascii) (s : str) : In c (strip s) -> In c s.
Proof.
  intros H. destruct (strip_split s) as (l & r & E & _). rewrite E.
  apply in_or_app. right. apply in_or_app. now left.
Qed.


(** ** C5: what the normalizer keeps *)



(** ** C4: when two titles match *)

Lemma titles_match_iff (s a : str) :
  _titles_match s (Some a) = true <->
  a <> [] /\
  (normalize s = normalize a \/
   substring (normalize s) (normalize a) \/
   substring (normalize a) (normalize s)).
Proof.
  unfold _titles_match. destruct a as [|x a]; simpl negb; cbv iota.
  - split; [discriminate | intros [H _]; congruence].
  - cbv zeta. rewrite !orb_true_iff, str_eqb_eq, !contains_iff.
    split; [intros H; split; [discriminate | tauto] | tauto].
Qed.

(** C4, as stated, fails: the empty record title normalizes to the empty
    string, which is a substring of every normalized search title, and the
    matcher declares no match with it. *)
Lemma C4_counterexample :
  _titles_match (py "Naruto") (Some []) = false /\
  substring (normalize []) (normalize (py "Naruto")).
Proof.
  split; [reflexivity|]. apply contains_iff. reflexivity.
Qed.

(** C4, amended. With a record title that is not empty, the matcher
    declares a match exactly when the normalized titles are equal or one is
    a substring of the other; with an empty or a null record title it
    never does. *)
Theorem C4_titles_match_policy (search_title : str) :
  (forall api_title, api_title <> [] ->
     (_titles_match search_title (Some api_title) = true <->
      normalize search_title = normalize api_title \/
      substring (normalize search_title) (normalize api_title) \/
      substring (normalize api_title) (normalize search_title))) /\
  _titles_match search_title (Some []) = false /\
  _titles_match search_title None = false.
Proof.
  split; [|split; reflexivity].
  intros api_title Hne. rewrite titles_match_iff. tauto.
Qed.

(** ** The matcher on a season declaration *)

Lemma starts_with_split (p q s : str) :
  starts_with (p ++ q) s
  = starts_with p s && starts_with q (skipn (length p) s).
Proof.
  revert s; induction p as [|x p IH]; intros s; simpl.
  - reflexivity.
  - destruct s as [|y s]; [reflexivity|].
    destruct (Ascii.eqb x y); [apply IH | reflexivity].
Qed.

Lemma starts_with_head (x : ascii) (p : str) (y : ascii) (s : str) :
  x <> y -> starts_with (x :: p) (y :: s) = false.
Proof.
  intros H. simpl. destruct (Ascii.eqb_spec x y); [contradiction|reflexivity].
Qed.

Lemma starts_with_cons (x : ascii) (p : str) (y : ascii) (s : str) :
  starts_with (x :: p) (y :: s) = Ascii.eqb x y && starts_with p s.
Proof. reflexivity. Qed.

Lemma consumed_app (w t : str) : consumed (w ++ t) t = w.
Proof.
  unfold consumed. rewrite length_app, Nat.add_sub.
  rewrite firstn_app, Nat.sub_diag, firstn_all. simpl. apply app_nil_r.
Qed.

Section Backtracking.
Context {R : Type}.
Implicit Types (k : str -> option R) (c : cset).

(** A lazy repetition stops at the first length that lets the rest of the
    pattern match. *)
Lemma lazy_plus_first c (w post : str) k (r : R) :
  w <> [] ->
  Forall (fun a => cmatch c a = true) w ->
  (forall w1 w2, w = w1 ++ w2 -> w1 <> [] -> w2 <> [] ->
                 k (w2 ++ post) = None) ->
  k post = Some r ->
  lazy_plus c (w ++ post) k = Some r.
Proof.
  induction w as [|a w IH]; intros Hne Hall Hfail Hok; [congruence|].
  simpl. inversion Hall as [|? ? Ha Hw]; subst. rewrite Ha.
  destruct w as [|b w].
  - simpl. now rewrite Hok.
  - rewrite (Hfail [a] (b :: w)) by (reflexivity || discriminate).
    apply IH; [discriminate | exact Hw | | exact Hok].
    intros w1 w2 E H1 H2. apply (Hfail (a :: w1) w2); [|discriminate|exact H2].
    simpl. now rewrite E.
Qed.

(** A greedy run of blanks that the rest of the pattern accepts. *)
Lemma greedy_star_run (x : ascii) (n : nat) (s : str) k (r : R) :
  greedy_star (Chr x) s k = Some r ->
  greedy_star (Chr x) (repeat x n ++ s) k = Some r.
Proof.
  intros H. induction n as [|n IH]; simpl; [exact H|].
  now rewrite Ascii.eqb_refl, IH.
Qed.

Lemma greedy_star_stop c (y : ascii) (s : str) k :
  cmatch c y = false -> greedy_star c (y :: s) k = k (y :: s).
Proof. intros H. simpl. now rewrite H. Qed.
End Backtracking.

(** No marker followed by the closing quote starts inside a plain link:
    the quote would have to be in the link, or the [v] that opens the
    marker would have to stand further on in the pattern. *)
Lemma no_early_marker (p l m : str) :
  In dquote p -> ~ In "v"%char p -> ~ In dquote l ->
  starts_with p (l ++ "v"%char :: m) = false.
Proof.
  revert p; induction l as [|a l IH]; intros p Hq Hv Hl.
  - destruct p as [|x p]; [contradiction|]. apply starts_with_head.
    intros ->. apply Hv. now left.
  - destruct p as [|x p]; [contradiction|]. simpl.
    destruct (Ascii.eqb_spec x a) as [->|_]; [|reflexivity]. simpl.
    apply IH.
    + destruct Hq as [E|Hq]; [|exact Hq]. exfalso. apply Hl. now left.
    + intros H. apply Hv. now right.
    + intros H. apply Hl. now right.
Qed.

Lemma marker_text_v (m : Marker) : exists t, marker_text m = "v"%char :: t.
Proof. destruct m; eexists; reflexivity. Qed.

Lemma marker_re_here {R} (m : Marker) (rest : str) (caps : list str)
      (k : str -> list str -> option R) :
  rmatch marker_re (marker_text m ++ closing ++ rest) caps k
  = k rest caps.
Proof.
  destruct m; simpl; [|reflexivity]. now destruct (k rest caps).
Qed.

Lemma marker_re_early {R} (a : ascii) (l : str) (m : Marker) (t : str)
      (caps : list str) (k : str -> list str -> option R) :
  ~ In dquote (a :: l) ->
  rmatch marker_re ((a :: l) ++ marker_text m ++ t) caps k = None.
Proof.
  intros Hl. destruct (marker_text_v m) as [mt ->].
  change (("v"%char :: mt) ++ t) with ("v"%char :: mt ++ t).
  assert (Hl' : ~ In dquote l) by (intros H; apply Hl; now right).
  assert (Hv : forall p, In dquote p -> ~ In "v"%char p ->
    starts_with ("v"%char :: p) ((a :: l) ++ "v"%char :: mt ++ t) = false).
  { intros p Hq Hp. change ((a :: l) ++ "v"%char :: mt ++ t)
      with (a :: (l ++ "v"%char :: (mt ++ t))).
    rewrite starts_with_cons, (no_early_marker p l (mt ++ t) Hq Hp Hl').
    apply andb_false_r. }
  assert (H1 : starts_with (py "vostfr" ++ [dquote])
                           ((a :: l) ++ "v"%char :: mt ++ t) = false).
  { apply (Hv (py "ostfr" ++ [dquote])).
    - apply in_or_app. right. now left.
    - intros H. repeat destruct H as [H|H]; try discriminate H; auto. }
  assert (H2 : starts_with (py "vf" ++ [dquote])
                           ((a :: l) ++ "v"%char :: mt ++ t) = false).
  { apply (Hv (py "f" ++ [dquote])).
    - apply in_or_app. right. now left.
    - intros H. repeat destruct H as [H|H]; try discriminate H; auto. }
  rewrite starts_with_split in H1, H2.
  assert (Hq : forall s', starts_with [dquote] s' = false ->
                          starts_with closing s' = false).
  { intros [|y s'] H; [reflexivity|]. unfold closing.
    rewrite starts_with_cons in *.
    apply andb_false_iff in H as [H|H]; [now rewrite H | discriminate]. }
  unfold marker_re. cbn [rmatch].
  destruct (starts_with (py "vostfr") _).
  - rewrite andb_true_l in H1. rewrite (Hq _ H1).
    destruct (starts_with (py "vf") _); [|reflexivity].
    rewrite andb_true_l in H2. now rewrite (Hq _ H2).
  - destruct (starts_with (py "vf") _); [|reflexivity].
    rewrite andb_true_l in H2. now rewrite (Hq _ H2).
Qed.

Lemma plain_spec (s : str) :
  plain s = true ->
  s <> [] /\ ~ In dquote s /\ Forall (fun a => cmatch Dot a = true) s.
Proof.
  unfold plain. intros H.
  apply andb_true_iff in H as [H Hnl]. apply andb_true_iff in H as [Hne Hq].
  split; [now destruct s|]. split.
  - intros Hin. apply negb_true_iff in Hq.
    assert (existsb (Ascii.eqb dquote) s = true); [|congruence].
    apply existsb_exists. exists dquote. split; [exact Hin|].
    apply Ascii.eqb_refl.
  - apply Forall_forall. intros a Ha. simpl. apply negb_true_iff.
    apply negb_true_iff in Hnl.
    destruct (Ascii.eqb_spec a newline) as [->|]; [|reflexivity].
    rewrite <- Hnl. symmetry. apply existsb_exists. exists newline.
    split; [exact Ha | apply Ascii.eqb_refl].
Qed.

Section Equations.
Context {R : Type}.
Implicit Types (k : str -> list str -> option R).

Lemma rmatch_cat r1 r2 s caps k :
  rmatch (Cat r1 r2) s caps k
  = rmatch r1 s caps (fun s' caps' => rmatch r2 s' caps' k).
Proof. reflexivity. Qed.

Lemma rmatch_lit_here p s caps k : rmatch (Lit p) (p ++ s) caps k = k s caps.
Proof. simpl. now rewrite starts_with_app, skipn_length_app. Qed.

Lemma rmatch_lit_miss p s caps k :
  starts_with p s = false -> rmatch (Lit p) s caps k = None.
Proof. intros H. simpl. now rewrite H. Qed.

Lemma rmatch_group_lazy c s caps k :
  rmatch (Group (LazyPlus c)) s caps k
  = lazy_plus c s (fun s' => k s' (caps ++ [consumed s s'])).
Proof. reflexivity. Qed.

Lemma rmatch_star c s caps k :
  rmatch (Star c) s caps k = greedy_star c s (fun s' => k s' caps).
Proof. reflexivity. Qed.
End Equations.

Lemma season_re_cut :
  season_re
  = Cat (Lit keyword) (Cat (Group (LazyPlus Dot)) after_name_re).
Proof. reflexivity. Qed.

(** From the quote that opens a plain link on, the pattern matches up to
    the end of the declaration and records the link without its marker. *)
Lemma match_link {R} (l : str) (m : Marker) (rest : str) (caps : list str)
      (k : str -> list str -> option R) (r : R) :
  plain l = true ->
  k rest (caps ++ [l]) = Some r ->
  rmatch link_re ([dquote] ++ l ++ marker_text m ++ closing ++ rest) caps k
  = Some r.
Proof.
  intros Hl Hk. apply plain_spec in Hl as (Hl1 & Hl2 & Hl3).
  unfold link_re. rewrite rmatch_cat, rmatch_lit_here.
  rewrite rmatch_cat, rmatch_group_lazy.
  apply lazy_plus_first; [exact Hl1 | exact Hl3 | |].
  - intros w1 [|b w2] E _ H2; [congruence|].
    apply (marker_re_early b w2 m).
    intros H. apply Hl2. rewrite E. apply in_or_app. now right.
  - rewrite consumed_app, marker_re_here. exact Hk.
Qed.

(** At the start of a well-formed declaration the pattern matches, with the
    name and the link without its marker as its groups, and the match ends
    with the declaration. *)
Lemma match_declaration (d : Declaration) (rest : str) :
  well_formed d = true ->
  match_here season_re (declaration_text d ++ rest)
  = Some ([d_name d; d_link d], rest).
Proof.
  intros Hwf. apply andb_true_iff in Hwf as [Hn Hl].
  apply plain_spec in Hn as (Hn1 & Hn2 & Hn3).
  unfold match_here, declaration_text.
  rewrite season_re_cut, <- !app_assoc.
  rewrite rmatch_cat, rmatch_lit_here, rmatch_cat, rmatch_group_lazy.
  apply lazy_plus_first; [exact Hn1 | exact Hn3 | |].
  - intros w1 [|b w2] E _ H2; [congruence|].
    unfold after_name_re. rewrite rmatch_cat. apply rmatch_lit_miss.
    apply starts_with_head.
    intros <-. apply Hn2. rewrite E. apply in_or_app. right. now left.
  - rewrite consumed_app. unfold after_name_re.
    rewrite rmatch_cat, rmatch_lit_here, rmatch_cat, rmatch_star.
    apply greedy_star_run.
    change ([dquote] ++ ?x) with (dquote :: x).
    rewrite greedy_star_stop by reflexivity.
    now apply (match_link (d_link d) (d_marker d) rest).
Qed.

(** ** The scan of a page *)

Lemma match_needs_keyword (s : str) :
  starts_with keyword s = false -> match_here season_re s = None.
Proof.
  intros H. unfold match_here. rewrite season_re_cut, rmatch_cat.
  now apply rmatch_lit_miss.
Qed.

Lemma starts_with_contains (p s : str) :
  starts_with p s = true -> contains p s = true.
Proof. intros H. rewrite contains_unfold, H. reflexivity. Qed.

Lemma contains_app_r (p a b : str) :
  contains p b = true -> contains p (a ++ b) = true.
Proof.
  intros H. induction a as [|x a IH]; [exact H|].
  simpl app. rewrite contains_unfold, IH. apply orb_true_r.
Qed.

(** A pattern that starts in [b] and matches [b ++ rest] lies in [b], or
    runs over the end of [b] into [rest]. *)
Lemma starts_with_app_cases (p b rest : str) :
  starts_with p (b ++ rest) = true ->
  starts_with p b = true \/
  exists p2, p = b ++ p2 /\ p2 <> [] /\ starts_with p2 rest = true.
Proof.
  revert b; induction p as [|x p IH]; intros b H; [now left|].
  destruct b as [|y b].
  - right. exists (x :: p). repeat split; [discriminate | exact H].
  - simpl app in H. rewrite starts_with_cons in *.
    apply andb_true_iff in H as [Hxy H].
    destruct (IH b H) as [Hb|(p2 & -> & Hne & Hp2)].
    + left. now rewrite Hxy.
    + right. exists p2. apply Ascii.eqb_eq in Hxy. subst y. auto.
Qed.

(** The text that opens a declaration does not overlap itself: its first
    character does not come back in it. *)
Lemma keyword_no_border : ~ In "p"%char (tl keyword).
Proof.
  intros H. cbv in H. repeat destruct H as [H|H]; try discriminate H; auto.
Qed.

(** In text where no declaration opens, followed by a declaration or by
    the end of the page, the pattern matches nowhere. *)
Lemma no_match_in_filler (f a b rest : str) :
  keyword_free f = true ->
  f = a ++ b -> b <> [] ->
  rest = [] \/ (exists rest', rest = keyword ++ rest') ->
  match_here season_re (b ++ rest) = None.
Proof.
  intros Hfree -> Hb Hrest. apply match_needs_keyword.
  destruct (starts_with keyword (b ++ rest)) eqn:E; [|reflexivity].
  exfalso. apply starts_with_app_cases in E as [E|(p2 & Ek & Hne & Ep2)].
  - apply negb_true_iff in Hfree.
    rewrite (contains_app_r _ a b (starts_with_contains _ _ E)) in Hfree.
    discriminate.
  - destruct p2 as [|x p2]; [congruence|].
    destruct b as [|y b]; [congruence|].
    assert (Hx : In x (tl keyword)).
    { rewrite Ek. simpl. apply in_or_app. right. now left. }
    destruct Hrest as [->|[rest' ->]]; [discriminate|].
    change (keyword ++ rest') with ("p"%char :: (tl keyword ++ rest')) in Ep2.
    rewrite starts_with_cons in Ep2. apply andb_true_iff in Ep2 as [Ep2 _].
    apply Ascii.eqb_eq in Ep2. subst x. exact (keyword_no_border Hx).
Qed.

Lemma scan_here (r : regex) (c : ascii) (s : str) :
  scan r (c :: s) 0 =
  match match_here r (c :: s) with
  | Some (caps, rest) =>
      inr caps :: scan r s (length (c :: s) - length rest - 1)
  | None => inl [c] :: scan r s 0
  end.
Proof. reflexivity. Qed.

Lemma scan_skip (r : regex) (w rest : str) :
  scan r (w ++ rest) (length w) = scan r rest 0.
Proof. induction w as [|c w IH]; [reflexivity | exact IH]. Qed.

Lemma findall_filler (r : regex) (f rest : str) :
  (forall a b, f = a ++ b -> b <> [] -> match_here r (b ++ rest) = None) ->
  findall r (f ++ rest) = findall r rest.
Proof.
  unfold findall. induction f as [|c f IH]; intros H; [reflexivity|].
  simpl app. rewrite scan_here.
  assert (H0 : match_here r (c :: f ++ rest) = None).
  { apply (H [] (c :: f) eq_refl). discriminate. }
  rewrite H0. simpl flat_map.
  apply IH. intros a b E Hb. apply (H (c :: a)); [|exact Hb].
  simpl. now rewrite E.
Qed.

Lemma findall_match (r : regex) (w rest : str) (caps : list str) :
  w <> [] ->
  match_here r (w ++ rest) = Some (caps, rest) ->
  findall r (w ++ rest) = caps :: findall r rest.
Proof.
  intros Hw H. destruct w as [|c w]; [congruence|].
  assert (E : length (c :: w ++ rest) - length rest - 1 = length w).
  { change (length (c :: w ++ rest)) with (S (length (w ++ rest))).
    rewrite length_app. lia. }
  unfold findall. simpl app in *. rewrite scan_here, H, E, scan_skip.
  reflexivity.
Qed.

Lemma declaration_text_keyword (d : Declaration) (rest : str) :
  exists rest', declaration_text d ++ rest = keyword ++ rest'.
Proof. unfold declaration_text. rewrite <- app_assoc. eauto. Qed.

(** [re.findall] on a page: one pair of groups for each declaration, in the
    order of the page. *)
Lemma findall_document (decls : list (Declaration * str)) : forall first,
  keyword_free first = true ->
  forallb (fun df => well_formed (fst df) && keyword_free (snd df)) decls
  = true ->
  findall season_re (document first decls)
  = map (fun df => [d_name (fst df); d_link (fst df)]) decls.
Proof.
  induction decls as [|[d f] decls IH]; intros first Hfirst Hall.
  - unfold document. simpl flat_map. rewrite findall_filler; [reflexivity|].
    intros a b E Hb. apply (no_match_in_filler first a b); auto.
  - simpl in Hall. apply andb_true_iff in Hall as [Hd Hall].
    apply andb_true_iff in Hd as [Hwf Hf].
    change (document first ((d, f) :: decls))
      with (first ++ (declaration_text d ++ f) ++
            flat_map (fun df => declaration_text (fst df) ++ snd df) decls).
    rewrite <- app_assoc. fold (document f decls).
    rewrite findall_filler.
    + rewrite findall_match with (caps := [d_name d; d_link d]).
      * simpl map. f_equal. now apply IH.
      * unfold declaration_text, keyword. discriminate.
      * now apply match_declaration.
    + intros a b E Hb. apply (no_match_in_filler first a b); auto.
      right. apply declaration_text_keyword.
Qed.

Lemma build_seasons_declarations (base full : str)
      (decls : list (Declaration * str)) :
  build_seasons base full
    (map (fun df => [d_name (fst df); d_link (fst df)]) decls)
  = Ok (map (fun df => season_of base full (fst df)) decls).
Proof.
  induction decls as [|[d f] decls IH]; [reflexivity|].
  simpl. simpl in IH. now rewrite IH.
Qed.

Lemma page_keeps_url env c h r c1 h1 :
  page env c h = (r, c1, h1) -> url c1 = url c.
Proof.
  destruct (_page c) as [p|] eqn:E.
  - rewrite (page_cached _ _ _ _ E). now intros [= _ <- _].
  - rewrite (page_fresh _ _ _ E).
    destruct (client_get env h (url c)); now intros [= _ <- _].
Qed.

Lemma blanks_repeat (w : str) :
  Forall (fun a => cmatch (Chr " "%char) a = true) w ->
  w = repeat " "%char (length w).
Proof.
  induction 1 as [|a w Ha _ IH]; [reflexivity|].
  simpl in *. apply Ascii.eqb_eq in Ha. subst a. now f_equal.
Qed.

Section Inversion.
Context {R : Type}.
Implicit Types (k : str -> option R) (c : cset).

(** What a lazy repetition consumed when the pattern matched. *)
Lemma lazy_plus_inv c (s : str) k (r : R) :
  lazy_plus c s k = Some r ->
  exists w s', s = w ++ s' /\ w <> [] /\ k s' = Some r.
Proof.
  induction s as [|a s IH]; simpl; [discriminate|].
  destruct (cmatch c a); [|discriminate].
  destruct (k s) as [r'|] eqn:E.
  - intros [= <-]. exists [a], s. repeat split; [discriminate | exact E].
  - intros H. destruct (IH H) as (w & s' & -> & _ & Hk).
    exists (a :: w), s'. repeat split; [discriminate | exact Hk].
Qed.

(** What a greedy repetition consumed when the pattern matched. *)
Lemma greedy_star_inv c (s : str) k (r : R) :
  greedy_star c s k = Some r ->
  exists w s', s = w ++ s' /\
               Forall (fun a => cmatch c a = true) w /\ k s' = Some r.
Proof.
  induction s as [|a s IH]; simpl.
  - intros H. exists [], []. auto.
  - destruct (cmatch c a) eqn:Ea.
    + destruct (greedy_star c s k) as [r'|] eqn:E.
      * intros [= <-]. destruct (IH eq_refl) as (w & s' & -> & Hw & Hk).
        exists (a :: w), s'. auto.
      * intros H. exists [], (a :: s). auto.
    + intros H. exists [], (a :: s). auto.
Qed.

Lemma rmatch_lit_inv (p s : str) caps (k : str -> list str -> option R) r :
  rmatch (Lit p) s caps k = Some r ->
  exists s', s = p ++ s' /\ k s' caps = Some r.
Proof.
  simpl. destruct (starts_with p s) eqn:E; [|discriminate].
  apply starts_with_iff in E as [t ->]. rewrite skipn_length_app. eauto.
Qed.

Lemma marker_re_inv (s : str) caps (k : str -> list str -> option R) r :
  rmatch marker_re s caps k = Some r ->
  exists m rest, s = marker_text m ++ closing ++ rest /\ k rest caps = Some r.
Proof.
  unfold marker_re. rewrite rmatch_cat.
  change (rmatch (Alt (Lit (py "vostfr")) (Lit (py "vf"))) s caps
            (fun s' caps' => rmatch (Lit closing) s' caps' k))
    with (match rmatch (Lit (py "vostfr")) s caps
                   (fun s' caps' => rmatch (Lit closing) s' caps' k) with
          | Some res => Some res
          | None => rmatch (Lit (py "vf")) s caps
                      (fun s' caps' => rmatch (Lit closing) s' caps' k)
          end).
  destruct (rmatch (Lit (py "vostfr")) s caps _) as [r'|] eqn:E.
  - intros [= <-]. apply rmatch_lit_inv in E as (s1 & -> & E).
    apply rmatch_lit_inv in E as (s2 & -> & E). now exists Vostfr, s2.
  - intros H. apply rmatch_lit_inv in H as (s1 & -> & H).
    apply rmatch_lit_inv in H as (s2 & -> & H). now exists Vf, s2.
Qed.
End Inversion.

(** Where the pattern matches, the text reads as a declaration, and the
    groups are its name and its link without the marker. *)
Lemma match_here_inv (s : str) (caps : list str) (rest : str) :
  match_here season_re s = Some (caps, rest) ->
  exists d, s = declaration_text d ++ rest /\ caps = [d_name d; d_link d].
Proof.
  unfold match_here. rewrite season_re_cut, rmatch_cat. intros H.
  apply rmatch_lit_inv in H as (s1 & -> & H).
  rewrite rmatch_cat, rmatch_group_lazy in H.
  apply lazy_plus_inv in H as (nm & s2 & -> & _ & H).
  rewrite consumed_app in H. unfold after_name_re in H.
  rewrite rmatch_cat in H. apply rmatch_lit_inv in H as (s3 & -> & H).
  rewrite rmatch_cat, rmatch_star in H.
  apply greedy_star_inv in H as (bl & s4 & -> & Hbl & H).
  unfold link_re in H. rewrite rmatch_cat in H.
  apply rmatch_lit_inv in H as (s5 & -> & H).
  rewrite rmatch_cat, rmatch_group_lazy in H.
  apply lazy_plus_inv in H as (lk & s6 & -> & _ & H).
  rewrite consumed_app in H.
  apply marker_re_inv in H as (m & tl & -> & H). injection H as <- <-.
  exists {| d_name := nm; d_spaces := length bl; d_link := lk;
            d_marker := m |}.
  split; [|reflexivity]. unfold declaration_text. simpl d_name.
  simpl d_spaces. simpl d_link. simpl d_marker.
  rewrite <- (blanks_repeat bl Hbl). now rewrite <- !app_assoc.
Qed.

Lemma declaration_text_nonempty (d : Declaration) : declaration_text d <> [].
Proof. unfold declaration_text, keyword. discriminate. Qed.

(** Every page reads as text and declarations in turn, such that
    [re.findall] returns the groups of exactly these declarations, in
    order. *)
Lemma page_reads_as_document (n : nat) : forall s : str,
  length s <= n ->
  exists first decls,
    s = document first decls /\
    findall season_re s
    = map (fun df => [d_name (fst df); d_link (fst df)]) decls.
Proof.
  induction n as [|n IH]; intros s Hlen.
  - destruct s; [|simpl in Hlen; lia]. exists [], []. now split.
  - destruct s as [|c s]; [exists [], []; now split|].
    simpl in Hlen.
    destruct (match_here season_re (c :: s)) as [[caps rest]|] eqn:E.
    + destruct (match_here_inv _ _ _ E) as (d & Es & ->).
      assert (Hrest : length rest <= n).
      { apply (f_equal (@length ascii)) in Es. rewrite length_app in Es.
        pose proof (declaration_text_nonempty d).
        destruct (declaration_text d); [congruence|]. simpl in Es. lia. }
      destruct (IH rest Hrest) as (f & decls & Er & Ef).
      exists [], ((d, f) :: decls). rewrite Es in *. split.
      * unfold document in *. cbn [flat_map fst snd].
        rewrite app_nil_l, <- app_assoc. now f_equal.
      * rewrite findall_match with (caps := [d_name d; d_link d]).
        -- simpl. now rewrite Ef.
        -- apply declaration_text_nonempty.
        -- exact E.
    + destruct (IH s ltac:(lia)) as (f & decls & Es & Ef).
      exists (c :: f), decls. split.
      * unfold document in *. rewrite <- app_comm_cons. now f_equal.
      * rewrite <- Ef. apply (findall_filler season_re [c] s).
        intros a b Eab Hb. destruct a as [|x a].
        -- simpl in Eab. subst b. exact E.
        -- injection Eab as _ Eab. symmetry in Eab.
           apply app_eq_nil in Eab as [_ ->]. congruence.
Qed.

(** ** C2: the seasons of a page *)

(** C2. When [page] returns, [seasons] returns too, and its seasons are
    those of the declarations [panneauAnime("name", "link" + marker);] of
    the page body, comments removed: the body reads as text and
    declarations in turn such that [seasons] returns one season for each
    declaration, in the order of the page, with the name of the
    declaration and, for URL, the canonical URL of the entity followed by
    the link without its marker [vostfr] or [vf]. When the body holds N
    declarations, each with a plain name and a plain link before its
    marker, and no declaration opens in the text before, between and after
    them, [seasons] returns exactly N seasons, those of the N declarations
    in the order of the page. All seasons carry the name that
    [get_name_with_year] resolves. *)
Theorem C2_seasons_of_declarations env c h p c1 h1 :
  page env c h = (Ok p, c1, h1) ->
  exists full c2 h2 result,
    get_name_with_year env c1 h1 = (Ok full, c2, h2) /\
    seasons env c h = (Ok result, c2, h2) /\
    (exists first decls,
        remove_some_js_comments env p = document first decls /\
        result = map (fun df => season_of (url c) full (fst df)) decls) /\
    (forall first decls,
        remove_some_js_comments env p = document first decls ->
        keyword_free first = true ->
        forallb (fun df => well_formed (fst df) && keyword_free (snd df))
                decls = true ->
        length result = length decls /\
        result = map (fun df => season_of (url c) full (fst df)) decls).
Proof.
  intros Hpage.
  assert (Hname : exists full c2 h2,
    get_name_with_year env c1 h1 = (Ok full, c2, h2) /\ url c2 = url c1).
  { destruct (get_name_with_year_frame env c1 h1) as (full & k & [E|[_ E]]);
      rewrite E; eauto 6. }
  destruct Hname as (full & c2 & h2 & Hname & Hurl).
  set (body := remove_some_js_comments env p).
  destruct (page_reads_as_document (length body) body (le_n _))
    as (first0 & decls0 & Hbody & Hfound).
  assert (Hseasons : seasons env c h =
    (build_seasons (url c) full (findall season_re body), c2, h2)).
  { rewrite seasons_unfold, Hpage, Hname, Hurl.
    now rewrite (page_keeps_url _ _ _ _ _ _ Hpage). }
  exists full, c2, h2,
    (map (fun df => season_of (url c) full (fst df)) decls0).
  split; [exact Hname|]. split; [|split].
  - rewrite Hseasons, Hfound. now rewrite build_seasons_declarations.
  - now exists first0, decls0.
  - intros first decls Hdoc Hfirst Hall.
    assert (E : Ok (map (fun df => season_of (url c) full (fst df)) decls0)
                = Ok (map (fun df => season_of (url c) full (fst df)) decls)).
    { rewrite <- !build_seasons_declarations, <- Hfound, Hdoc.
      now rewrite findall_document. }
    injection E as E. rewrite E. split; [apply length_map | reflexivity].
Qed.

(** ** The statements at work on the sample inputs *)

Lemma naruto_constructed :
  __init__ naruto_url (py "Naruto") None None None None [] = Ok naruto.
Proof. reflexivity. Qed.

(** A page request answered [Not Found]: one request, the empty string,
    cached. *)
Lemma C1_page_fetch_once_witness :
  _page naruto = None /\
  snd (page (serve not_found (found_records [])) naruto [])
  = [ClientGet naruto_url] /\
  exists c',
    page (serve not_found (found_records [])) naruto []
    = (Ok [], c', [ClientGet naruto_url]) /\
    _page c' = Some [].
Proof.
  pose proof (C1_page_fetch_once (serve not_found (found_records []))
                                 naruto [] eq_refl) as [Hlog Hfirst].
  split; [reflexivity|]. split; [exact Hlog|].
  destruct (Hfirst _ eq_refl) as (p & c' & Hpage & Hp & Hcache & _).
  exists c'. subst p. split; [exact Hpage | exact Hcache].
Defined.

(** The two declarations of the sample page give two seasons, in order. *)
Lemma C2_seasons_of_declarations_witness :
  page (serve (found_page sample_page) (found_records [naruto_record]))
       naruto []
  = (Ok sample_page, with_page sample_page naruto, [ClientGet naruto_url]) /\
  exists full c2 h2,
    seasons (serve (found_page sample_page) (found_records [naruto_record]))
            naruto []
    = (Ok [season_of naruto_url full season_one;
           season_of naruto_url full film], c2, h2).
Proof.
  split; [reflexivity|].
  destruct (C2_seasons_of_declarations
              (serve (found_page sample_page) (found_records [naruto_record]))
              naruto [] sample_page (with_page sample_page naruto)
              [ClientGet naruto_url] eq_refl)
    as (full & c2 & h2 & result & _ & Hseasons & _ & Hexact).
  destruct (Hexact (py "<script>" ++ [newline])
                   [(season_one, [newline]); (film, newline :: py "</script>")]
                   eq_refl eq_refl eq_refl) as [_ Hresult].
  exists full, c2, h2. rewrite Hseasons, Hresult. reflexivity.
Defined.

(** A service that knows no record: the name of the entity, cached. *)
Lemma C3_no_match_falls_back_witness :
  _name_with_year naruto = None /\
  exists c',
    get_name_with_year (serve not_found (found_records [])) naruto []
    = (Ok (py "Naruto"), c', queries [py "Naruto"]) /\
    _name_with_year c' = Some (py "Naruto").
Proof.
  split; [reflexivity|].
  destruct (C3_no_match_falls_back (serve not_found (found_records []))
                                   naruto [] eq_refl)
    as (c' & Hget & Hcache & _).
  - intros i n _ resp animes Hresp _ Hjson anime Hin.
    injection Hresp as <-. injection Hjson as <-. destruct Hin.
  - exists c'. split; [exact Hget | exact Hcache].
Defined.

(** The candidate ["Naruto"] and a record titled ["Naruto"] of the year
    2002 resolve to ["Naruto (2002)"]. *)
Lemma C6_first_match_resolves_witness :
  record_matches (py "Naruto") naruto_record = true /\
  get_name_with_year (serve not_found (found_records [naruto_record]))
                     naruto []
  = (Ok (py "Naruto (2002)"), with_name_with_year (py "Naruto (2002)") naruto,
     queries [py "Naruto"]).
Proof.
  split; [vm_compute; reflexivity|].
  destruct (C6_first_match_resolves
              (serve not_found (found_records [naruto_record])) naruto []
              [] (py "Naruto") []
              {| status := 200%Z; json := Ok [naruto_record] |}
              [] naruto_record [])
    as (full & Hget & Hyear & _).
  - reflexivity.
  - reflexivity.
  - intros [|i] m Hi; discriminate Hi.
  - reflexivity.
  - reflexivity.
  - reflexivity.
  - intros a [].
  - vm_compute. reflexivity.
  - intros [H|H]; discriminate H.
  - rewrite (Hyear 2002%Z eq_refl) in Hget by discriminate. exact Hget.
Defined.

(** Two alternate names: the first is the name of the entity and stands
    twice at the head of the candidates. *)
Lemma C10_candidates_repeat_first_alternate_witness :
  exists c,
    __init__ naruto_url (py "naruto") (Some [py "Naruto"; py "NARUTO"])
             None None None [] = Ok c /\
    name c = py "Naruto" /\
    names_to_try c = [py "Naruto"; py "Naruto"; py "NARUTO"].
Proof.
  eexists. split; [reflexivity|].
  destruct (C10_candidates_repeat_first_alternate
              naruto_url (py "naruto") (py "Naruto") [py "NARUTO"]
              None None None [] _ eq_refl) as (Hname & Hlist & _).
  split; [exact Hname | exact Hlist].
Defined.

(** * Further properties of the class *)

(** ** The addresses that the constructor stores *)

Lemma init_site_url u n alts g cats langs img c :
  __init__ u n alts g cats langs img = Ok c ->
  site_url c = join (py "/") (firstn 3 (split "/"%char u)) ++ py "/".
Proof.
  unfold __init__. intros H.
  destruct (neg_index u 1) as [last|]; simpl in H; [|discriminate].
  destruct (if truthy n then _ else _) as [nm|]; simpl in H; [|discriminate].
  now injection H as <-.
Qed.

(** X1. The canonical URL of an entity is the address given to the
    constructor when that ends with the separator, and the address with one
    separator added when it does not. Building an entity again from a
    canonical URL leaves the URL as it is, and an address without the
    separator and the same address with it give one canonical URL. *)
Theorem X1_canonical_url u n alts g cats langs img c :
  __init__ u n alts g cats langs img = Ok c ->
  (neg_index u 1 = Ok "/"%char -> url c = u) /\
  (neg_index u 1 <> Ok "/"%char -> url c = u ++ py "/") /\
  (forall n' alts' g' cats' langs' img' c',
      __init__ (url c) n' alts' g' cats' langs' img' = Ok c' ->
      url c' = url c) /\
  (forall n' alts' g' cats' langs' img' c',
      neg_index u 1 <> Ok "/"%char ->
      __init__ (u ++ py "/") n' alts' g' cats' langs' img' = Ok c' ->
      url c' = url c /\ __eq__ c (PyCatalogue c') = true).
Proof.
  intros H. destruct (init_url _ _ _ _ _ _ _ _ H) as (u' & last & -> & Hu).
  rewrite neg_index_last.
  assert (Hclosed : forall v n' alts' g' cats' langs' img' c',
    __init__ (v ++ py "/") n' alts' g' cats' langs' img' = Ok c' ->
    url c' = v ++ py "/").
  { intros v n' alts' g' cats' langs' img' c' H'.
    destruct (init_url _ _ _ _ _ _ _ _ H') as (v' & x & E & ->).
    change (py "/") with ["/"%char] in E.
    apply app_inj_tail in E as [_ <-]. reflexivity. }
  split; [|split; [|split]].
  - intros [= ->]. now rewrite Ascii.eqb_refl in Hu.
  - intros Hn. destruct (Ascii.eqb_spec last "/"%char) as [->|_];
      [congruence | exact Hu].
  - intros n' alts' g' cats' langs' img' c' H'. rewrite Hu in *.
    destruct (Ascii.eqb_spec last "/"%char) as [->|_].
    + now apply (Hclosed u') in H'.
    + now apply Hclosed in H'.
  - intros n' alts' g' cats' langs' img' c' Hn H'.
    destruct (Ascii.eqb_spec last "/"%char) as [->|_]; [congruence|].
    apply Hclosed in H'. rewrite Hu.
    split; [exact H' | apply str_eqb_eq; congruence].
Qed.

Lemma join_3 (a b c : str) (sep : str) :
  join sep [a; b; c] = a ++ sep ++ b ++ sep ++ c.
Proof. reflexivity. Qed.

(** X2. For an address that reads scheme, two separators, host, and then
    nothing or a separator and a path, the site URL of the entity is the
    scheme, the two separators, the host and one separator: the path is
    dropped. *)
Theorem X2_site_url scheme host u n alts g cats langs img c :
  ~ In "/"%char scheme -> ~ In "/"%char host ->
  u = scheme ++ py "//" ++ host \/
  (exists path, u = scheme ++ py "//" ++ host ++ py "/" ++ path) ->
  __init__ u n alts g cats langs img = Ok c ->
  site_url c = scheme ++ py "//" ++ host ++ py "/".
Proof.
  intros Hs Hh Hu H. rewrite (init_site_url _ _ _ _ _ _ _ _ H).
  assert (E : firstn 3 (split "/"%char u) = [scheme; []; host]).
  { destruct Hu as [->|[path ->]].
    - change (scheme ++ py "//" ++ host)
        with (scheme ++ "/"%char :: ([] ++ "/"%char :: host)).
      rewrite !split_app_sep, (split_no_sep _ scheme Hs),
        (split_no_sep _ host Hh). reflexivity.
    - change (scheme ++ py "//" ++ host ++ py "/" ++ path)
        with (scheme ++ "/"%char :: ([] ++ "/"%char ::
                                        (host ++ "/"%char :: path))).
      rewrite !split_app_sep, (split_no_sep _ scheme Hs),
        (split_no_sep _ host Hh). simpl.
      reflexivity. }
  rewrite E, join_3. simpl. now rewrite <- !app_assoc.
Qed.

(** ** The fields read off the page *)

Lemma advancement_unfold env c h :
  advancement env c h =
  match page env c h with
  | (Ok p, c1, h1) => (Ok (first_capture (findall advancement_re p)), c1, h1)
  | (Raise e, c1, h1) => (Raise e, c1, h1)
  end.
Proof.
  unfold advancement, bind. now destruct (page env c h) as [[[p|e] c1] h1].
Qed.

Lemma correspondence_unfold env c h :
  correspondence env c h =
  match page env c h with
  | (Ok p, c1, h1) =>
      (Ok (first_capture (findall correspondence_re p)), c1, h1)
  | (Raise e, c1, h1) => (Raise e, c1, h1)
  end.
Proof.
  unfold correspondence, bind.
  now destruct (page env c h) as [[[p|e] c1] h1].
Qed.

Lemma synopsis_unfold env c h :
  synopsis env c h =
  match page env c h with
  | (Ok p, c1, h1) => (Ok (first_capture (findall synopsis_re p)), c1, h1)
  | (Raise e, c1, h1) => (Raise e, c1, h1)
  end.
Proof.
  unfold synopsis, bind. now destruct (page env c h) as [[[p|e] c1] h1].
Qed.

(** X3. When the request for the page raises, [page] raises the same
    exception after that one request and caches nothing: the entity is as
    it was, so the next call of [page] sends the request again. [seasons],
    [advancement], [correspondence] and [synopsis] raise that exception
    too, and [seasons] does not get as far as the metadata service. *)
Theorem X3_page_exception_is_not_cached env c h e :
  _page c = None ->
  client_get env h (url c) = Raise e ->
  page env c h = (Raise e, c, h ++ [ClientGet (url c)]) /\
  seasons env c h = (Raise e, c, h ++ [ClientGet (url c)]) /\
  advancement env c h = (Raise e, c, h ++ [ClientGet (url c)]) /\
  correspondence env c h = (Raise e, c, h ++ [ClientGet (url c)]) /\
  synopsis env c h = (Raise e, c, h ++ [ClientGet (url c)]) /\
  forall h', snd (page env c h') = h' ++ [ClientGet (url c)].
Proof.
  intros Hfresh Hraise.
  assert (Hpage : page env c h = (Raise e, c, h ++ [ClientGet (url c)])).
  { now rewrite (page_fresh _ _ _ Hfresh), Hraise. }
  repeat split.
  - exact Hpage.
  - now rewrite seasons_unfold, Hpage.
  - now rewrite advancement_unfold, Hpage.
  - now rewrite correspondence_unfold, Hpage.
  - now rewrite synopsis_unfold, Hpage.
  - intros h'. rewrite (page_fresh _ _ _ Hfresh).
    now destruct (client_get env h' (url c)).
Qed.

(** X4. When the request for the page is answered without success,
    [advancement], [correspondence] and [synopsis] return the empty string
    and do not raise; each caches the empty page. When the comment
    stripper leaves the empty text empty, [seasons] returns no season. *)
Theorem X4_failed_fetch_reads_empty env c h response :
  _page c = None ->
  client_get env h (url c) = Ok response ->
  is_success response = false ->
  advancement env c h = (Ok [], with_page [] c, h ++ [ClientGet (url c)]) /\
  correspondence env c h
    = (Ok [], with_page [] c, h ++ [ClientGet (url c)]) /\
  synopsis env c h = (Ok [], with_page [] c, h ++ [ClientGet (url c)]) /\
  (remove_some_js_comments env [] = [] ->
   exists c2 h2, seasons env c h = (Ok [], c2, h2)).
Proof.
  intros Hfresh Hresp Hfail.
  assert (Hpage : page env c h
                  = (Ok [], with_page [] c, h ++ [ClientGet (url c)])).
  { rewrite (page_fresh _ _ _ Hfresh), Hresp. cbv zeta. now rewrite Hfail. }
  repeat split.
  - now rewrite advancement_unfold, Hpage.
  - now rewrite correspondence_unfold, Hpage.
  - now rewrite synopsis_unfold, Hpage.
  - intros Hstrip. rewrite seasons_unfold, Hpage, Hstrip.
    destruct (get_name_with_year_frame env (with_page [] c)
                (h ++ [ClientGet (url c)])) as (full & k & [E|[_ E]]);
      rewrite E; eauto.
Qed.

(** A pattern that opens with a literal text finds nothing in a page that
    does not hold that text. *)
Lemma findall_without_label (label : str) (r : regex) (p : str) :
  contains label p = false -> findall (Cat (Lit label) r) p = [].
Proof.
  intros H. rewrite <- (app_nil_r p). rewrite findall_filler; [reflexivity|].
  intros a b -> Hb. rewrite app_nil_r. unfold match_here.
  rewrite rmatch_cat. apply rmatch_lit_miss.
  destruct (starts_with label b) eqn:E; [|reflexivity].
  rewrite (contains_app_r _ a b (starts_with_contains _ _ E)) in H.
  discriminate.
Qed.

(** X5. On a cached page that does not hold the label [Avancement],
    [advancement] returns the empty string, without a request; so do
    [correspondence] for the label [Correspondance] and [synopsis] for the
    label [Synopsis]. *)
Theorem X5_absent_label_reads_empty env c h p :
  _page c = Some p ->
  (contains (py "Avancement") p = false ->
   advancement env c h = (Ok [], c, h)) /\
  (contains (py "Correspondance") p = false ->
   correspondence env c h = (Ok [], c, h)) /\
  (contains (py "Synopsis") p = false ->
   synopsis env c h = (Ok [], c, h)).
Proof.
  intros Hp. repeat split; intros H.
  - rewrite advancement_unfold, (page_cached _ _ _ _ Hp).
    unfold advancement_re. now rewrite findall_without_label.
  - rewrite correspondence_unfold, (page_cached _ _ _ _ Hp).
    unfold correspondence_re. now rewrite findall_without_label.
  - rewrite synopsis_unfold, (page_cached _ _ _ _ Hp).
    unfold synopsis_re. now rewrite findall_without_label.
Qed.

Lemma one_line_without_spec (x : ascii) (s : str) :
  one_line_without x s = true ->
  s <> [] /\ ~ In x s /\ Forall (fun a => cmatch Dot a = true) s.
Proof.
  unfold one_line_without. intros H.
  apply andb_true_iff in H as [H Hnl]. apply andb_true_iff in H as [Hne Hx].
  split; [now destruct s|]. split.
  - intros Hin. apply negb_true_iff in Hx.
    assert (existsb (Ascii.eqb x) s = true); [|congruence].
    apply existsb_exists. exists x. split; [exact Hin|].
    apply Ascii.eqb_refl.
  - apply Forall_forall. intros a Ha. simpl. apply negb_true_iff.
    apply negb_true_iff in Hnl.
    destruct (Ascii.eqb_spec a newline) as [->|]; [|reflexivity].
    rewrite <- Hnl. symmetry. apply existsb_exists. exists newline.
    split; [exact Ha | apply Ascii.eqb_refl].
Qed.

Lemma rmatch_lazy {R} c s caps (k : str -> list str -> option R) :
  rmatch (LazyPlus c) s caps k = lazy_plus c s (fun s' => k s' caps).
Proof. reflexivity. Qed.

(** Before a label that does not overlap itself, in text that does not
    hold it, a pattern that opens with the label matches nowhere. *)
Lemma no_match_before_label (label : str) (r : regex) (f a b rest : str) :
  (exists x tl, label = x :: tl /\ ~ In x tl) ->
  contains label f = false ->
  f = a ++ b -> b <> [] ->
  rest = [] \/ (exists rest', rest = label ++ rest') ->
  match_here (Cat (Lit label) r) (b ++ rest) = None.
Proof.
  intros (x & tl & -> & Hx) Hfree -> Hb Hrest. unfold match_here.
  rewrite rmatch_cat. apply rmatch_lit_miss.
  destruct (starts_with (x :: tl) (b ++ rest)) eqn:E; [|reflexivity].
  exfalso. apply starts_with_app_cases in E as [E|(p2 & Ek & Hne & Ep2)].
  - rewrite (contains_app_r _ a b (starts_with_contains _ _ E)) in Hfree.
    discriminate.
  - destruct p2 as [|y p2]; [congruence|].
    destruct b as [|z b]; [congruence|].
    assert (Hy : In y tl).
    { injection Ek as _ ->. apply in_or_app. right. now left. }
    destruct Hrest as [->|[rest' ->]]; [discriminate|].
    simpl app in Ep2. rewrite starts_with_cons in Ep2.
    apply andb_true_iff in Ep2 as [Ep2 _].
    apply Ascii.eqb_eq in Ep2. subst y. exact (Hx Hy).
Qed.

(** At a label, the pattern of a field takes the markup up to the first
    [>] and the value up to the first [<]. *)
Lemma match_field (label mid value post : str) :
  one_line_without ">"%char mid = true ->
  one_line_without "<"%char value = true ->
  match_here (field_re label)
             (label ++ mid ++ py ">" ++ value ++ py "<" ++ post)
  = Some ([value], post).
Proof.
  intros Hm Hv. apply one_line_without_spec in Hm as (Hm1 & Hm2 & Hm3).
  apply one_line_without_spec in Hv as (Hv1 & Hv2 & Hv3).
  unfold match_here, field_re.
  rewrite rmatch_cat, rmatch_lit_here, rmatch_cat, rmatch_lazy.
  apply lazy_plus_first; [exact Hm1 | exact Hm3 | |].
  - intros w1 [|b w2] E _ H2; [congruence|].
    rewrite rmatch_cat. apply rmatch_lit_miss.
    change ((b :: w2) ++ ?t) with (b :: (w2 ++ t)).
    change (py ">") with [">"%char]. apply starts_with_head.
    intros <-. apply Hm2. rewrite E. apply in_or_app. right. now left.
  - rewrite rmatch_cat, rmatch_lit_here, rmatch_cat, rmatch_group_lazy.
    apply lazy_plus_first; [exact Hv1 | exact Hv3 | |].
    + intros w1 [|b w2] E _ H2; [congruence|].
      apply rmatch_lit_miss.
      change ((b :: w2) ++ ?t) with (b :: (w2 ++ t)).
      change (py "<") with ["<"%char]. apply starts_with_head.
      intros <-. apply Hv2. rewrite E. apply in_or_app. right. now left.
    + rewrite consumed_app, rmatch_lit_here. reflexivity.
Qed.

(** The first field of a page: the label is not in the text before it. *)
Lemma first_field (label pre mid value post : str) :
  (exists x tl, label = x :: tl /\ ~ In x tl) ->
  contains label pre = false ->
  one_line_without ">"%char mid = true ->
  one_line_without "<"%char value = true ->
  first_capture
    (findall (field_re label)
             (pre ++ label ++ mid ++ py ">" ++ value ++ py "<" ++ post))
  = value.
Proof.
  intros Hlabel Hpre Hm Hv.
  rewrite findall_filler.
  - replace (label ++ mid ++ py ">" ++ value ++ py "<" ++ post)
      with ((label ++ mid ++ py ">" ++ value ++ py "<") ++ post)
      by (now rewrite <- !app_assoc).
    rewrite findall_match with (caps := [value]); [reflexivity | |].
    + destruct Hlabel as (x & tl & -> & _). discriminate.
    + rewrite <- !app_assoc. now apply match_field.
  - intros a b E Hb. apply (no_match_before_label label _ pre a b); auto.
    right. eauto.
Qed.

(** X6. On a cached page where the text before the first [Avancement] does
    not hold that label, where the label is followed by markup on one line
    that is not empty and ends at its first [>], and that by a value on one
    line that is not empty and ends at its first [<], [advancement] returns
    that value, without a request. *)
Theorem X6_advancement_value env c h pre mid value post :
  _page c
  = Some (pre ++ py "Avancement" ++ mid ++ py ">" ++ value ++ py "<" ++ post) ->
  contains (py "Avancement") pre = false ->
  one_line_without ">"%char mid = true ->
  one_line_without "<"%char value = true ->
  advancement env c h = (Ok value, c, h).
Proof.
  intros Hp Hpre Hm Hv.
  rewrite advancement_unfold, (page_cached _ _ _ _ Hp).
  change advancement_re with (field_re (py "Avancement")).
  rewrite first_field; auto.
  eexists. eexists. split; [reflexivity|]. cbv.
  intros H. repeat destruct H as [H|H]; try discriminate H; auto.
Qed.

(** X7. The same for [correspondence] and the label [Correspondance]: it
    returns the value between the first [>] after the first label and the
    next [<]. *)
Theorem X7_correspondence_value env c h pre mid value post :
  _page c
  = Some (pre ++ py "Correspondance" ++ mid ++ py ">" ++ value ++ py "<"
              ++ post) ->
  contains (py "Correspondance") pre = false ->
  one_line_without ">"%char mid = true ->
  one_line_without "<"%char value = true ->
  correspondence env c h = (Ok value, c, h).
Proof.
  intros Hp Hpre Hm Hv.
  rewrite correspondence_unfold, (page_cached _ _ _ _ Hp).
  change correspondence_re with (field_re (py "Correspondance")).
  rewrite first_field; auto.
  eexists. eexists. split; [reflexivity|]. cbv.
  intros H. repeat destruct H as [H|H]; try discriminate H; auto.
Qed.

Section Greedy.
Context {R : Type}.
Implicit Types (k : str -> option R) (c : cset).

Lemma greedy_star_blocked c (s : str) k :
  blocked c s -> greedy_star c s k = k s.
Proof.
  intros [->|(y & t & -> & Hy)]; [reflexivity|]. simpl. now rewrite Hy.
Qed.

Lemma greedy_star_none c (v s : str) k :
  Forall (fun a => cmatch c a = true) v ->
  blocked c s ->
  (forall v1 v2, v = v1 ++ v2 -> k (v2 ++ s) = None) ->
  greedy_star c (v ++ s) k = None.
Proof.
  intros Hv Hs. induction Hv as [|a v Ha _ IH]; intros Hk.
  - simpl. rewrite greedy_star_blocked by exact Hs. apply (Hk [] []).
    reflexivity.
  - simpl. rewrite Ha, IH.
    + apply (Hk [] (a :: v)). reflexivity.
    + intros v1 v2 E. apply (Hk (a :: v1) v2). simpl. now rewrite E.
Qed.

(** A greedy repetition gives back characters down to the last place
    where the rest of the pattern matches. *)
Lemma greedy_star_last c (v s : str) k (r : R) :
  Forall (fun a => cmatch c a = true) v ->
  blocked c s ->
  (forall v1 v2, v = v1 ++ v2 -> v1 <> [] -> k (v2 ++ s) = None) ->
  k (v ++ s) = Some r ->
  greedy_star c (v ++ s) k = Some r.
Proof.
  intros Hv Hs Hk Hok. destruct Hv as [|a v Ha Hv].
  - simpl in *. now rewrite greedy_star_blocked.
  - simpl. rewrite Ha, greedy_star_none; auto.
    intros v1 v2 E. apply (Hk (a :: v1) v2); [|discriminate].
    simpl. now rewrite E.
Qed.

Lemma greedy_star_prefix c (u t : str) k (r : R) :
  Forall (fun a => cmatch c a = true) u ->
  greedy_star c t k = Some r ->
  greedy_star c (u ++ t) k = Some r.
Proof.
  intros Hu Ht. induction Hu as [|a u Ha _ IH]; [exact Ht|].
  simpl. now rewrite Ha, IH.
Qed.

Lemma rmatch_group_plus c (x : ascii) (s : str) caps
      (k : str -> list str -> option R) :
  rmatch (Group (Plus c)) (x :: s) caps k
  = if cmatch c x
    then greedy_star c s (fun s' => k s' (caps ++ [consumed (x :: s) s']))
    else None.
Proof. reflexivity. Qed.
End Greedy.

Lemma any_char_all (s : str) :
  Forall (fun a => cmatch any_char a = true) s.
Proof.
  apply Forall_forall. intros a _. simpl. now destruct (is_word a).
Qed.

Lemma one_line_spec (s : str) :
  one_line s = true -> Forall (fun a => cmatch Dot a = true) s.
Proof.
  unfold one_line. intros H. apply Forall_forall. intros a Ha. simpl.
  apply negb_true_iff. apply negb_true_iff in H.
  destruct (Ascii.eqb_spec a newline) as [->|]; [|reflexivity].
  rewrite <- H. symmetry. apply existsb_exists. exists newline.
  split; [exact Ha | apply Ascii.eqb_refl].
Qed.

Lemma without_spec (x : ascii) (s : str) :
  without x s = true -> ~ In x s.
Proof.
  unfold without. intros H Hin. apply negb_true_iff in H.
  assert (existsb (Ascii.eqb x) s = true); [|congruence].
  apply existsb_exists. exists x. split; [exact Hin | apply Ascii.eqb_refl].
Qed.

Lemma line_ends_blocked (s : str) : line_ends s = true -> blocked Dot s.
Proof.
  destruct s as [|y t]; [now left|]. simpl. intros H. right.
  exists y, t. split; [reflexivity|]. simpl. now rewrite H.
Qed.

Lemma brackets_end_lines_at (w1 w2 : str) :
  brackets_end_lines (w1 ++ ">"%char :: w2) = true ->
  exists t, w2 = newline :: t.
Proof.
  induction w1 as [|a w1 IH]; intros H.
  - simpl app in H. cbn [brackets_end_lines] in H.
    rewrite Ascii.eqb_refl in H. destruct w2 as [|d t]; [discriminate|].
    apply andb_true_iff in H as [H _]. apply Ascii.eqb_eq in H. subst d.
    now exists t.
  - simpl app in H. cbn [brackets_end_lines] in H.
    apply andb_true_iff in H as [_ H]. now apply IH.
Qed.

(** At its label, the pattern of the synopsis passes the markup up to the
    first [>] that opens a value on its line, and takes the value up to the
    last [<] of that line. *)
Lemma match_synopsis (mid value line_rest after : str) :
  truthy mid = true -> brackets_end_lines mid = true ->
  truthy value = true -> one_line value = true ->
  one_line line_rest = true -> without "<"%char line_rest = true ->
  line_ends after = true ->
  match_here synopsis_re
    (py "Synopsis" ++ mid ++ py ">" ++ value ++ py "<" ++ line_rest ++ after)
  = Some ([value], line_rest ++ after).
Proof.
  intros Hm1 Hm2 Hv1 Hv2 Hl1 Hl2 Ha.
  apply one_line_spec in Hv2. apply one_line_spec in Hl1.
  apply without_spec in Hl2. apply line_ends_blocked in Ha.
  unfold match_here, synopsis_re. fold any_char.
  rewrite rmatch_cat, rmatch_lit_here, rmatch_cat, rmatch_lazy.
  apply lazy_plus_first.
  - now destruct mid.
  - apply any_char_all.
  - intros w1 [|b w2] E _ H2; [congruence|]. rewrite rmatch_cat.
    change ((b :: w2) ++ ?t) with (b :: (w2 ++ t)).
    change (py ">") with [">"%char].
    destruct (Ascii.eqb_spec ">"%char b) as [<-|Hb].
    + change (">"%char :: (w2 ++ ?t)) with ([">"%char] ++ (w2 ++ t)).
      rewrite (rmatch_lit_here [">"%char]), rmatch_cat.
      rewrite E in Hm2. apply brackets_end_lines_at in Hm2 as [t ->].
      reflexivity.
    + apply rmatch_lit_miss. now apply starts_with_head.
  - rewrite rmatch_cat, rmatch_lit_here, rmatch_cat.
    destruct value as [|a value]; [discriminate|].
    inversion Hv2 as [|? ? Hdot Hrest]; subst.
    change ((a :: value) ++ ?t) with (a :: (value ++ t)).
    rewrite rmatch_group_plus, Hdot.
    change (py "<" ++ line_rest ++ after)
      with (("<"%char :: line_rest) ++ after).
    apply greedy_star_prefix; [exact Hrest|].
    apply greedy_star_last.
    + constructor; [reflexivity | exact Hl1].
    + exact Ha.
    + intros v1 v2 E Hv. apply rmatch_lit_miss.
      destruct v1 as [|x v1]; [congruence|]. injection E as _ E.
      change (py "<") with ["<"%char].
      destruct v2 as [|y v2].
      * destruct Ha as [->|(z & t & -> & Hz)]; [reflexivity|].
        apply starts_with_head. intros <-. discriminate.
      * apply starts_with_head. intros <-. apply Hl2. rewrite E.
        apply in_or_app. right. now left.
    + change (("<"%char :: line_rest) ++ after)
        with (py "<" ++ line_rest ++ after).
      rewrite rmatch_lit_here.
      change (a :: value ++ py "<" ++ line_rest ++ after)
        with ((a :: value) ++ py "<" ++ line_rest ++ after).
      now rewrite consumed_app.
Qed.

(** X8. On a cached page where the text before the first [Synopsis] does
    not hold that label, [synopsis] passes the markup after the label up to
    the first [>] that is not at the end of a line, and returns the text
    from there up to the last [<] of that line; the markup may run over
    several lines and the value may hold [<] and [>] itself. No request is
    made. *)
Theorem X8_synopsis_value env c h pre mid value line_rest after :
  _page c
  = Some (pre ++ py "Synopsis" ++ mid ++ py ">" ++ value ++ py "<"
              ++ line_rest ++ after) ->
  contains (py "Synopsis") pre = false ->
  truthy mid = true -> brackets_end_lines mid = true ->
  truthy value = true -> one_line value = true ->
  one_line line_rest = true -> without "<"%char line_rest = true ->
  line_ends after = true ->
  synopsis env c h = (Ok value, c, h).
Proof.
  intros Hp Hpre Hm1 Hm2 Hv1 Hv2 Hl1 Hl2 Ha.
  rewrite synopsis_unfold, (page_cached _ _ _ _ Hp).
  rewrite findall_filler.
  - replace (py "Synopsis" ++ mid ++ py ">" ++ value ++ py "<"
                ++ line_rest ++ after)
      with ((py "Synopsis" ++ mid ++ py ">" ++ value ++ py "<")
              ++ line_rest ++ after)
      by (now rewrite <- !app_assoc).
    rewrite findall_match with (caps := [value]); [reflexivity | |].
    + discriminate.
    + rewrite <- !app_assoc. now apply match_synopsis.
  - intros a b E Hb. unfold synopsis_re.
    apply (no_match_before_label (py "Synopsis") _ pre a b); auto.
    + eexists. eexists. split; [reflexivity|]. cbv.
      intros H. repeat destruct H as [H|H]; try discriminate H; auto.
    + right. eauto.
Qed.

(** ** Calling again *)

Lemma page_returns_cached env c h p c1 h1 :
  page env c h = (Ok p, c1, h1) ->
  _page c1 = Some p /\ _name_with_year c1 = _name_with_year c.
Proof.
  destruct (_page c) as [q|] eqn:E.
  - rewrite (page_cached _ _ _ _ E). intros [= <- <- _]. now split.
  - rewrite (page_fresh _ _ _ E).
    destruct (client_get env h (url c)); [|discriminate].
    cbv zeta. intros [= <- <- _]. now split.
Qed.

Lemma get_name_with_year_returns env c h r c' h' :
  get_name_with_year env c h = (r, c', h') ->
  exists full,
    r = Ok full /\ _name_with_year c' = Some full /\
    _page c' = _page c /\ url c' = url c /\ name c' = name c /\
    alternative_names c' = alternative_names c.
Proof.
  destruct (get_name_with_year_frame env c h) as (full & k & [E|[Hc E]]);
    rewrite E; intros [= <- <- _]; exists full; repeat split; auto.
Qed.

(** X9. When [seasons] has returned, calling it again returns the same
    seasons, changes nothing and makes no request at all: the page and the
    resolved name are both cached. *)
Theorem X9_seasons_again env c h l c' h' :
  seasons env c h = (Ok l, c', h') ->
  forall h'', seasons env c' h'' = (Ok l, c', h'').
Proof.
  rewrite seasons_unfold. intros H h''.
  destruct (page env c h) as [[[p|e] c1] h1] eqn:Ep; [|discriminate].
  destruct (get_name_with_year env c1 h1) as [[r c2] h2] eqn:En.
  destruct (page_returns_cached _ _ _ _ _ _ Ep) as [Hp _].
  destruct (get_name_with_year_returns _ _ _ _ _ _ En)
    as (full & -> & Hn & Hp' & _).
  injection H as Hl <- <-. rewrite Hp in Hp'.
  rewrite seasons_unfold, (page_cached _ _ _ _ Hp'),
    (get_name_with_year_cached _ _ _ _ Hn).
  now rewrite Hl.
Qed.

(** ** What a season can be *)

Lemma lazy_plus_inv_class {R} c (s : str) (k : str -> option R) (r : R) :
  lazy_plus c s k = Some r ->
  exists w s', s = w ++ s' /\ w <> [] /\
               Forall (fun a => cmatch c a = true) w /\ k s' = Some r.
Proof.
  induction s as [|a s IH]; simpl; [discriminate|].
  destruct (cmatch c a) eqn:Ea; [|discriminate].
  destruct (k s) as [r'|] eqn:E.
  - intros [= <-]. exists [a], s. repeat split; auto. discriminate.
  - intros H. destruct (IH H) as (w & s' & -> & _ & Hw & Hk).
    exists (a :: w), s'. repeat split; auto. discriminate.
Qed.

Lemma dot_no_newline (w : str) :
  Forall (fun a => cmatch Dot a = true) w -> ~ In newline w.
Proof.
  intros H Hin. rewrite Forall_forall in H. specialize (H _ Hin).
  cbn [cmatch] in H. rewrite Ascii.eqb_refl in H. discriminate.
Qed.

(** The groups of a match of the pattern of [seasons]: a name and a link,
    neither empty, neither with a newline. *)
Lemma match_here_groups (s : str) (caps : list str) (rest : str) :
  match_here season_re s = Some (caps, rest) ->
  exists nm lk,
    caps = [nm; lk] /\ nm <> [] /\ lk <> [] /\
    ~ In newline nm /\ ~ In newline lk.
Proof.
  unfold match_here. rewrite season_re_cut, rmatch_cat. intros H.
  apply rmatch_lit_inv in H as (s1 & -> & H).
  rewrite rmatch_cat, rmatch_group_lazy in H.
  apply lazy_plus_inv_class in H as (nm & s2 & -> & Hnm & Hnm' & H).
  rewrite consumed_app in H. unfold after_name_re in H.
  rewrite rmatch_cat in H. apply rmatch_lit_inv in H as (s3 & -> & H).
  rewrite rmatch_cat, rmatch_star in H.
  apply greedy_star_inv in H as (bl & s4 & -> & Hbl & H).
  unfold link_re in H. rewrite rmatch_cat in H.
  apply rmatch_lit_inv in H as (s5 & -> & H).
  rewrite rmatch_cat, rmatch_group_lazy in H.
  apply lazy_plus_inv_class in H as (lk & s6 & -> & Hlk & Hlk' & H).
  rewrite consumed_app in H.
  apply marker_re_inv in H as (m & tl & -> & H). injection H as <- <-.
  exists nm, lk. repeat split; auto using dot_no_newline.
Qed.

Lemma scan_in (r : regex) (caps : list str) (s : str) : forall skip,
  In (inr caps) (scan r s skip) ->
  exists s1 rest, match_here r s1 = Some (caps, rest).
Proof.
  induction s as [|a s IH]; intros skip H; [destruct H|].
  destruct skip as [|n].
  - rewrite scan_here in H.
    destruct (match_here r (a :: s)) as [[caps' rest]|] eqn:E.
    + destruct H as [[= <-]|H]; [eauto | eauto].
    + destruct H as [H|H]; [discriminate | eauto].
  - simpl in H. eauto.
Qed.

Lemma findall_in (r : regex) (caps : list str) (s : str) :
  In caps (findall r s) ->
  exists s1 rest, match_here r s1 = Some (caps, rest).
Proof.
  unfold findall. intros H. apply in_flat_map in H as (x & Hx & Hc).
  destruct x as [t|caps']; [destruct Hc|].
  destruct Hc as [<-|[]]. eapply scan_in. exact Hx.
Qed.

Lemma build_seasons_in (base full : str) (found : list (list str)) :
  forall l, build_seasons base full found = Ok l ->
  forall s, In s l ->
  exists nm lk,
    In [nm; lk] found /\ Season.url s = base ++ lk /\
    Season.name s = nm /\ Season.serie_name s = full.
Proof.
  induction found as [|caps found IH]; intros l H s Hs.
  - injection H as <-. destruct Hs.
  - destruct caps as [|nm [|lk [|x caps]]]; try discriminate H.
    simpl in H.
    destruct (build_seasons base full found) as [l'|] eqn:E;
      [|discriminate]. simpl in H. injection H as <-.
    destruct Hs as [<-|Hs].
    + exists nm, lk. simpl. auto.
    + destruct (IH l' eq_refl s Hs) as (nm' & lk' & Hin & Hrest).
      exists nm', lk'. split; [now right | exact Hrest].
Qed.

(** X10. Whatever the page, every season that [seasons] returns has for
    URL the canonical URL of the entity followed by a link that is not
    empty and holds no newline, has a name that is not empty and holds no
    newline, and carries the name that the entity has cached as resolved. *)
Theorem X10_seasons_are_named_and_linked env c h l c' h' :
  seasons env c h = (Ok l, c', h') ->
  forall s, In s l ->
  exists link,
    Season.url s = url c ++ link /\
    link <> [] /\ ~ In newline link /\
    Season.name s <> [] /\ ~ In newline (Season.name s) /\
    _name_with_year c' = Some (Season.serie_name s).
Proof.
  rewrite seasons_unfold. intros H s Hs.
  destruct (page env c h) as [[[p|e] c1] h1] eqn:Ep; [|discriminate].
  destruct (get_name_with_year env c1 h1) as [[r c2] h2] eqn:En.
  destruct (get_name_with_year_returns _ _ _ _ _ _ En)
    as (full & -> & Hn & _ & Hu & _).
  injection H as Hl <- <-.
  destruct (build_seasons_in _ _ _ _ Hl s Hs)
    as (nm & lk & Hin & Hurl & Hname & Hfull).
  apply findall_in in Hin as (s1 & rest & Hm).
  apply match_here_groups in Hm
    as (nm' & lk' & [= <- <-] & Hnm & Hlk & Hnm' & Hlk').
  exists lk. rewrite Hurl, Hname, Hfull, Hu.
  rewrite (page_keeps_url _ _ _ _ _ _ Ep). auto 10.
Qed.

(** ** The resolver as a whole *)

(** X11. On an entity whose alternate names are a list, and with records
    whose default title is a string, [get_name_with_year] does not raise,
    whatever else the metadata service does: it returns a name and leaves
    it cached, after asking for a prefix of the candidates in order and for
    nothing else. It leaves the page cache, the URL and the names of the
    entity as they were, and calling it again returns the same name without
    a request. *)
Theorem X11_resolver_always_returns env c h :
  exists full c' k,
    get_name_with_year env c h
    = (Ok full, c', h ++ queries (firstn k (names_to_try c))) /\
    _name_with_year c' = Some full /\
    _page c' = _page c /\ url c' = url c /\ name c' = name c /\
    alternative_names c' = alternative_names c /\
    forall h', get_name_with_year env c' h' = (Ok full, c', h').
Proof.
  destruct (get_name_with_year_frame env c h) as (full & k & [E|[Hc E]]).
  - exists full, (with_name_with_year full c), k. rewrite E.
    repeat split; try (intros h'; now apply get_name_with_year_cached).
  - exists full, c, 0. rewrite E. simpl. rewrite app_nil_r.
    repeat split; auto; try (intros h'; now apply get_name_with_year_cached).
Qed.

(** ** The matcher of titles as a relation *)

Lemma str_eqb_sym (a b : str) : str_eqb a b = str_eqb b a.
Proof.
  destruct (str_eqb a b) eqn:E1, (str_eqb b a) eqn:E2; try reflexivity.
  - apply str_eqb_eq in E1. subst. now rewrite str_eqb_refl in E2.
  - apply str_eqb_eq in E2. subst. now rewrite str_eqb_refl in E1.
Qed.

(** X12. On titles that are not empty the matcher is symmetric, the search
    title and the record title can change places, and every such title
    matches itself. *)
Theorem X12_titles_match_symmetric (a b : str) :
  a <> [] -> b <> [] ->
  _titles_match a (Some b) = _titles_match b (Some a) /\
  _titles_match a (Some a) = true.
Proof.
  intros Ha Hb. destruct a as [|x a]; [congruence|].
  destruct b as [|y b]; [congruence|]. unfold _titles_match.
  cbn [truthy negb]. cbv zeta. split.
  - rewrite (str_eqb_sym (normalize (y :: b))).
    destruct (str_eqb _ _), (contains (normalize (x :: a)) _),
      (contains (normalize (y :: b)) _); reflexivity.
  - now rewrite str_eqb_refl.
Qed.

Lemma substring_nil (s : str) : substring [] s.
Proof. now exists [], s. Qed.

(** X13. A title whose normal form is empty, such as one made of
    punctuation only or the empty search title, matches everything: a
    search title with an empty normal form matches every record title that
    is not empty, and a record title that is not empty but has an empty
    normal form matches every search title. *)
Theorem X13_empty_normal_form_matches_all (search_title api_title : str) :
  api_title <> [] ->
  normalize search_title = [] \/ normalize api_title = [] ->
  _titles_match search_title (Some api_title) = true.
Proof.
  intros Hne H. apply titles_match_iff. split; [exact Hne|].
  destruct H as [-> | ->]; [right; left | right; right];
    apply substring_nil.
Qed.

(** ** Normalizing twice *)

Lemma filter_all {A} (f : A -> bool) (l : list A) :
  Forall (fun a => f a = true) l -> filter f l = l.
Proof.
  induction 1 as [|a l Ha _ IH]; [reflexivity|]. simpl.
  now rewrite Ha, IH.
Qed.

Lemma lower_fixed (s : str) :
  Forall (fun a => is_upper a = false) s -> lower s = s.
Proof.
  induction 1 as [|a l Ha _ IH]; [reflexivity|]. simpl.
  now rewrite (lower_char_fixed a Ha), IH.
Qed.

Lemma lstrip_fixed (s : str) :
  (forall c t, s = c :: t -> is_space c = false) -> lstrip s = s.
Proof.
  destruct s as [|c t]; [reflexivity|]. intros H. simpl.
  now rewrite (H c t eq_refl).
Qed.

Lemma strip_fixed (s : str) :
  (forall c t, s = c :: t -> is_space c = false) ->
  (forall t c, s = t ++ [c] -> is_space c = false) ->
  strip s = s.
Proof.
  intros Hhead Hlast. unfold strip. rewrite (lstrip_fixed s Hhead).
  rewrite lstrip_fixed; [apply rev_involutive|].
  intros c t E. apply (Hlast (rev t) c).
  rewrite <- (rev_involutive s), E. reflexivity.
Qed.

Lemma strip_idempotent (s : str) : strip (strip s) = strip s.
Proof.
  destruct (strip_split s) as (l & r & _ & _ & _ & Hhead & Hlast).
  now apply strip_fixed.
Qed.

Lemma normalize_kept (s : str) :
  Forall (fun a => word_or_space a = true) (normalize s) /\
  Forall (fun a => is_upper a = false) (normalize s).
Proof.
  rewrite normalize_filter. split; apply Forall_forall; intros a Ha;
    apply filter_In in Ha as [Hin Hk]; [exact Hk|].
  apply in_strip in Hin. unfold lower in Hin.
  apply in_map_iff in Hin as (x & <- & _). apply lower_char_not_upper.
Qed.

(** X14. Normalizing a normal form only takes the whitespace off its ends:
    [normalize] trims before it removes characters, so a normal form can
    start or end with whitespace and [normalize] is not idempotent; from
    the second pass on nothing changes. *)
Theorem X14_normalize_twice (s : str) :
  normalize (normalize s) = strip (normalize s) /\
  normalize (normalize (normalize s)) = normalize (normalize s) /\
  normalize (py "- a") = py " a" /\
  normalize (normalize (py "- a")) = py "a".
Proof.
  assert (H : forall t, normalize (normalize t) = strip (normalize t)).
  { intros t. destruct (normalize_kept t) as [Hk Hu].
    rewrite (normalize_filter (normalize t)), (lower_fixed _ Hu).
    apply filter_all. apply Forall_forall. intros a Ha.
    apply in_strip in Ha. rewrite Forall_forall in Hk. now apply Hk. }
  split; [apply H|]. split; [|split; reflexivity].
  rewrite (H (normalize s)), (H s). apply strip_idempotent.
Qed.

(** ** The categories *)

Lemma init_categories u n alts g cats langs img c :
  __init__ u n alts g cats langs img = Ok c ->
  categories c = or_default cats [] /\
  languages c = or_default langs [] /\
  genres c = or_default g [] /\ image_url c = img.
Proof.
  unfold __init__. intros H.
  destruct (neg_index u 1) as [last|]; simpl in H; [|discriminate].
  destruct (if truthy n then _ else _) as [nm|]; simpl in H; [|discriminate].
  now injection H as <-.
Qed.

Lemma category_in (k : Category) (l : list Category) :
  existsb (Category_eqb k) l = true <-> In k l.
Proof.
  rewrite existsb_exists. split.
  - intros (x & Hx & E). destruct k, x; try discriminate; exact Hx.
  - intros H. exists k. split; [exact H | now destruct k].
Qed.

(** X15. The four tests of an entity read the categories given to the
    constructor and nothing else: each holds exactly when its category is
    among them, so an entity can pass several tests, and an entity built
    without categories passes none. *)
Theorem X15_category_tests u n alts g cats langs img c :
  __init__ u n alts g cats langs img = Ok c ->
  (is_anime c = true <-> In Anime (or_default cats [])) /\
  (is_manga c = true <-> In Scans (or_default cats [])) /\
  (is_film c = true <-> In Film (or_default cats [])) /\
  (is_other c = true <-> In Autres (or_default cats [])) /\
  (cats = None ->
   is_anime c = false /\ is_manga c = false /\
   is_film c = false /\ is_other c = false).
Proof.
  intros H. destruct (init_categories _ _ _ _ _ _ _ _ H) as (E & _).
  unfold is_anime, is_manga, is_film, is_other. rewrite E.
  split; [apply category_in|]. split; [apply category_in|].
  split; [apply category_in|]. split; [apply category_in|].
  intros ->. repeat split.
Qed.

(** ** The display name *)

Lemma shown_flags_cons (flags : str -> option str) (x : str)
      (l : list str) :
  shown_flags flags (x :: l) =
  if negb (str_eqb x (py "VOSTFR")) then
    match flags x with
    | Some flag =>
        match shown_flags flags l with
        | Some shown => Some (flag :: shown)
        | None => None
        end
    | None => None
    end
  else shown_flags flags l.
Proof. reflexivity. Qed.

Lemma shown_flags_some (flags : str -> option str) (langs : list str) :
  shown_flags flags langs <> None <->
  forall lang, In lang langs -> lang <> py "VOSTFR" -> flags lang <> None.
Proof.
  induction langs as [|x l [IH1 IH2]].
  - split; [intros _ ? [] | discriminate].
  - rewrite shown_flags_cons.
    destruct (str_eqb x (py "VOSTFR")) eqn:E; cbn [negb].
    + apply str_eqb_eq in E. split.
      * intros H lang [<-|Hl]; [congruence | now apply IH1].
      * intros H. apply IH2. intros lang Hl. apply H. now right.
    + assert (Hx : x <> py "VOSTFR").
      { intros ->. now rewrite str_eqb_refl in E. }
      destruct (flags x) as [flag|] eqn:Ef.
      * destruct (shown_flags flags l) as [sh|].
        -- split; [|discriminate]. intros _ lang [<-|Hl] Hv;
             [congruence|]. apply IH1; [discriminate | exact Hl | exact Hv].
        -- split; [congruence|]. intros H. exfalso.
           apply IH2; [|reflexivity].
           intros lang Hl. apply H. now right.
      * split; [congruence|]. intros H. exfalso.
        apply (H x (or_introl eq_refl) Hx). exact Ef.
Qed.

Lemma shown_flags_agree (flags flags' : str -> option str)
      (langs : list str) :
  (forall lang, lang <> py "VOSTFR" -> flags' lang = flags lang) ->
  shown_flags flags' langs = shown_flags flags langs.
Proof.
  intros H. induction langs as [|x l IH]; [reflexivity|].
  rewrite !shown_flags_cons.
  destruct (str_eqb x (py "VOSTFR")) eqn:E; cbn [negb]; [exact IH|].
  rewrite H, IH; [reflexivity|]. intros ->. now rewrite str_eqb_refl in E.
Qed.

Lemma join_cons_flat (sep a : str) (rest : list str) :
  join sep (a :: rest) = a ++ flat_map (fun r => sep ++ r) rest.
Proof.
  revert a; induction rest as [|b rest IH]; intros a.
  - simpl. now rewrite app_nil_r.
  - change (join sep (a :: b :: rest)) with (a ++ sep ++ join sep (b :: rest)).
    rewrite IH. simpl. now rewrite <- app_assoc.
Qed.

(** X16. The language [VOSTFR] is never shown and its flag is never looked
    up: the display name is the same under two tables of flags that agree
    on every other language. The display name raises for a missing flag
    exactly when a language of the entity other than [VOSTFR] has no
    flag. *)
Theorem X16_vostfr_is_not_shown (flags : str -> option str) (c : Catalogue) :
  (fancy_name flags c <> None <->
   forall lang, In lang (languages c) -> lang <> py "VOSTFR" ->
                flags lang <> None) /\
  (forall flags',
      (forall lang, lang <> py "VOSTFR" -> flags' lang = flags lang) ->
      fancy_name flags' c = fancy_name flags c).
Proof.
  split.
  - rewrite <- shown_flags_some. unfold fancy_name.
    destruct (shown_flags flags (languages c)); split; congruence.
  - intros flags' H. unfold fancy_name.
    now rewrite (shown_flags_agree flags flags' _ H).
Qed.

(** X17. The display name reads: the name of the entity, the style tag,
    every alternate name with a dash before it, a blank, and the flags
    shown, with blanks between them. When the entity was built with
    alternate names, its name is the first of them, so the first alternate
    name is displayed twice. [__str__] is the display name. *)
Theorem X17_fancy_name_layout (flags : str -> option str) (c : Catalogue)
        (shown : list str) :
  shown_flags flags (languages c) = Some shown ->
  fancy_name flags c
  = Some (name c ++ py "[bright_black]" ++
          flat_map (fun alt => py " - " ++ alt) (alternative_names c) ++
          py " " ++ join (py " ") shown) /\
  __str__ flags c = fancy_name flags c /\
  (forall u n first rest g cats langs img,
      __init__ u n (Some (first :: rest)) g cats langs img = Ok c ->
      fancy_name flags c
      = Some (first ++ py "[bright_black] - " ++ first ++
              flat_map (fun alt => py " - " ++ alt) rest ++
              py " " ++ join (py " ") shown)).
Proof.
  intros Hs.
  assert (H : fancy_name flags c
    = Some (name c ++ py "[bright_black]" ++
            flat_map (fun alt => py " - " ++ alt) (alternative_names c) ++
            py " " ++ join (py " ") shown)).
  { unfold fancy_name. rewrite Hs.
    destruct (alternative_names c) as [|a l]; [reflexivity|].
    cbn [truthy_list]. change ([[]] ++ a :: l) with ([] :: a :: l).
    rewrite join_cons_flat. reflexivity. }
  split; [exact H|]. split; [reflexivity|].
  intros u n first rest g cats langs img Hinit.
  destruct (init_names _ _ _ _ _ _ _ _ Hinit) as (_ & Hn & Ha & _).
  simpl in Hn, Ha. rewrite H, Hn, Ha. cbn [flat_map].
  now rewrite <- !app_assoc.
Qed.

(** ** The address of a query *)

Lemma replace_no_blank (s : str) :
  ~ In " "%char (replace " "%char "+"%char s).
Proof.
  unfold replace. intros H. apply in_map_iff in H as (x & Hx & _).
  destruct (Ascii.eqb_spec x " "%char); [discriminate | congruence].
Qed.

Lemma replace_fixed (s : str) :
  ~ In " "%char s -> replace " "%char "+"%char s = s.
Proof.
  unfold replace. induction s as [|a s IH]; intros H; [reflexivity|].
  simpl. destruct (Ascii.eqb_spec a " "%char) as [->|_].
  - exfalso. apply H. now left.
  - rewrite IH; [reflexivity|]. intros Hin. apply H. now right.
Qed.

(** X18. The address of a query holds no blank: every blank of the
    candidate name becomes a plus sign and nothing else is changed or
    escaped, so a name without blanks stands in the address as it is, and
    two names that differ only by blanks against plus signs are asked for
    at the same address. *)
Theorem X18_query_url (name_to_search : str) :
  ~ In " "%char (query_url name_to_search) /\
  length (query_url name_to_search) = 41 + length name_to_search /\
  (~ In " "%char name_to_search ->
   query_url name_to_search
   = py "https://api.jikan.moe/v4/anime?q=" ++ name_to_search
     ++ py "&limit=3") /\
  query_url (replace " "%char "+"%char name_to_search)
  = query_url name_to_search.
Proof.
  unfold query_url. repeat split.
  - intros H. apply in_app_or in H as [H|H].
    + cbv in H. repeat destruct H as [H|H]; try discriminate H; auto.
    + apply in_app_or in H as [H|H].
      * exact (replace_no_blank _ H).
      * cbv in H. repeat destruct H as [H|H]; try discriminate H; auto.
  - rewrite !length_app. unfold replace. rewrite length_map.
    change (length (py "https://api.jikan.moe/v4/anime?q=")) with 33.
    change (length (py "&limit=3")) with 8. lia.
  - intros H. now rewrite replace_fixed.
  - rewrite (replace_fixed (replace _ _ _)); [reflexivity|].
    apply replace_no_blank.
Qed.

(** ** Where a resolved name comes from *)

(** X19. A record whose three titles are all empty or null matches no
    candidate name, whatever the name. *)
Theorem X19_untitled_record_never_matches (name_to_search : str)
        (anime : AnimeRecord) :
  title anime = [] ->
  title_english anime = None \/ title_english anime = Some [] ->
  title_japanese anime = None \/ title_japanese anime = Some [] ->
  record_matches name_to_search anime = false.
Proof.
  intros Ht He Hj. unfold record_matches. rewrite Ht.
  destruct He as [-> | ->], Hj as [-> | ->]; reflexivity.
Qed.

Lemma first_match_inv n animes full :
  first_match n animes = Ok (Some full) ->
  exists anime y,
    In anime animes /\ record_matches n anime = true /\
    year_of anime = Ok y /\ full = with_year (title anime) y.
Proof.
  induction animes as [|a l IH]; simpl; [discriminate|].
  destruct (record_matches n a) eqn:E.
  - destruct (year_of a) as [y|e] eqn:Ey; [|discriminate].
    intros [= <-]. exists a, y. auto.
  - intros H. destruct (IH H) as (x & y & Hx & Hm & Hy & Hf).
    exists x, y. auto.
Qed.

Lemma answer_inv n r full :
  answer n r = Some full ->
  exists resp animes anime y,
    r = Ok resp /\ status resp = 200%Z /\ json resp = Ok animes /\
    In anime animes /\ record_matches n anime = true /\
    year_of anime = Ok y /\ full = with_year (title anime) y.
Proof.
  unfold answer. destruct r as [resp|e]; [|discriminate].
  destruct (Z.eqb_spec (status resp) 200) as [Hs|]; [|discriminate].
  destruct (json resp) as [animes|e] eqn:Ej; [|discriminate].
  destruct (first_match n animes) as [found|e] eqn:Ef; [|discriminate].
  intros ->.
  destruct (first_match_inv _ _ _ Ef) as (anime & y & Hin & Hm & Hy & Hf).
  exists resp, animes, anime, y. repeat split; auto.
Qed.

Lemma try_names_inv env c names : forall h full c' h',
  try_names names env c h = (Ok (Some full), c', h') ->
  exists n h0,
    In n names /\ answer n (session_get env h0 (query_url n)) = Some full.
Proof.
  induction names as [|n rest IH]; intros h full c' h' H.
  - discriminate H.
  - rewrite try_names_cons in H.
    destruct (answer n (session_get env h (query_url n))) as [f|] eqn:E.
    + injection H as <- _ _. exists n, h. split; [now left | exact E].
    + destruct (IH _ _ _ _ H) as (m & h0 & Hm & Ha).
      exists m, h0. split; [now right | exact Ha].
Qed.

Lemma with_year_prefix (t : str) (y : YearValue) :
  exists suffix, with_year t y = t ++ suffix.
Proof.
  destruct y as [n|s]; simpl.
  - destruct (Z.eqb n 0); [exists []; now rewrite app_nil_r | eauto].
  - destruct (truthy s); [eauto | exists []; now rewrite app_nil_r].
Qed.

(** X20. The name that [get_name_with_year] resolves is never made up: on
    an entity without a cached name it is either the name of the entity,
    or the default title of a record, followed by nothing or by a year in
    brackets, where the record was in a decoded answer of status 200 to
    the query for one of the candidates and matches that candidate. The
    default title is used whichever of the three titles matched. *)
Theorem X20_resolved_name_has_a_source env c h full c' h' :
  _name_with_year c = None ->
  get_name_with_year env c h = (Ok full, c', h') ->
  full = name c \/
  exists n h0 resp animes anime suffix y,
    In n (names_to_try c) /\
    session_get env h0 (query_url n) = Ok resp /\
    status resp = 200%Z /\ json resp = Ok animes /\
    In anime animes /\ record_matches n anime = true /\
    full = title anime ++ suffix /\
    year_of anime = Ok y /\
    full = with_year (title anime) y.
Proof.
  intros Hfresh H. rewrite (get_name_with_year_fresh _ _ _ Hfresh) in H.
  destruct (try_names (names_to_try c) env c h) as [[[[f|]|e] c1] h1] eqn:E.
  - injection H as <- _ _. right.
    destruct (try_names_inv _ _ _ _ _ _ _ E) as (n & h0 & Hn & Ha).
    apply answer_inv in Ha
      as (resp & animes & anime & y & Hr & Hs & Hj & Hin & Hm & Hy & Hf).
    destruct (with_year_prefix (title anime) y) as [suffix Hp].
    exists n, h0, resp, animes, anime, suffix, y. rewrite <- Hp.
    repeat split; auto.
  - injection H as <- _ _. now left.
  - discriminate H.
Qed.

(** X21. A query that fails does not end the resolution: when the request
    for a candidate raises, or is answered with a status other than 200,
    or with a body that does not decode, the loop over the candidates goes
    on with the next candidate as if the failed one had not been there,
    with one more request in the history. *)
Theorem X21_failed_query_is_skipped env c h n rest :
  (exists e, session_get env h (query_url n) = Raise e) \/
  (exists resp, session_get env h (query_url n) = Ok resp /\
                (status resp <> 200%Z \/ exists e, json resp = Raise e)) ->
  try_names (n :: rest) env c h
  = try_names rest env c (h ++ [SessionGet (query_url n)]).
Proof.
  intros H. rewrite try_names_cons.
  assert (E : answer n (session_get env h (query_url n)) = None).
  { unfold answer. destruct H as [[e ->]|(resp & -> & [Hs|[e He]])].
    - reflexivity.
    - apply Z.eqb_neq in Hs. now rewrite Hs.
    - rewrite He. now destruct (Z.eqb (status resp) 200). }
  now rewrite E.
Qed.

(** ** The further properties at work on the sample inputs *)

Lemma naruto_aliased_constructed :
  __init__ naruto_url (py "naruto") (Some [py "Naruto"; py "NARUTO"]) None
           (Some [Anime; Film]) (Some [py "VOSTFR"; py "VF"; py "VA"]) []
  = Ok naruto_aliased.
Proof. reflexivity. Qed.

Lemma X1_canonical_url_witness :
  exists c,
    __init__ naruto_url_bare (py "Naruto") None None None None [] = Ok c /\
    url c = naruto_url_bare ++ py "/".
Proof.
  eexists. split; [reflexivity|].
  apply (X1_canonical_url naruto_url_bare (py "Naruto") None None None None
                          [] _ eq_refl).
  discriminate.
Defined.

Lemma X2_site_url_witness :
  __init__ naruto_url (py "Naruto") None None None None [] = Ok naruto /\
  site_url naruto = py "https:" ++ py "//" ++ py "anime-sama.fr" ++ py "/".
Proof.
  split; [reflexivity|].
  apply (X2_site_url (py "https:") (py "anime-sama.fr") naruto_url
                     (py "Naruto") None None None None []).
  - intros H. cbv in H. repeat destruct H as [H|H]; try discriminate H; auto.
  - intros H. cbv in H. repeat destruct H as [H|H]; try discriminate H; auto.
  - right. exists (py "catalogue/naruto/"). reflexivity.
  - reflexivity.
Defined.

Lemma X3_page_exception_is_not_cached_witness :
  _page naruto = None /\
  page (serve unreachable (found_records [])) naruto []
  = (Raise TransportError, naruto, [ClientGet naruto_url]).
Proof.
  split; [reflexivity|].
  apply (X3_page_exception_is_not_cached
           (serve unreachable (found_records [])) naruto [] TransportError);
    reflexivity.
Defined.

Lemma X4_failed_fetch_reads_empty_witness :
  _page naruto = None /\
  synopsis (serve not_found (found_records [])) naruto []
  = (Ok [], with_page [] naruto, [ClientGet naruto_url]).
Proof.
  split; [reflexivity|].
  apply (X4_failed_fetch_reads_empty
           (serve not_found (found_records [])) naruto []
           {| is_success := false; text := py "Not Found" |});
    reflexivity.
Defined.

Lemma X5_absent_label_reads_empty_witness :
  _page (with_page sample_page naruto) = Some sample_page /\
  advancement (serve not_found (found_records []))
              (with_page sample_page naruto) []
  = (Ok [], with_page sample_page naruto, []).
Proof.
  split; [reflexivity|].
  apply (X5_absent_label_reads_empty
           (serve not_found (found_records []))
           (with_page sample_page naruto) [] sample_page eq_refl).
  reflexivity.
Defined.

Lemma X6_advancement_value_witness :
  _page naruto_read = Some fields_page /\
  advancement (serve not_found (found_records [])) naruto_read []
  = (Ok (py "Saison 2"), naruto_read, []).
Proof.
  split; [reflexivity|].
  apply (X6_advancement_value
           (serve not_found (found_records [])) naruto_read []
           (py "<p>") (py " : <a") (py "Saison 2")
           (skipn 28 fields_page)); reflexivity.
Defined.

Lemma X7_correspondence_value_witness :
  _page naruto_read = Some fields_page /\
  correspondence (serve not_found (found_records [])) naruto_read []
  = (Ok (py "Episode 12"), naruto_read, []).
Proof.
  split; [reflexivity|].
  apply (X7_correspondence_value
           (serve not_found (found_records [])) naruto_read []
           (firstn 39 fields_page) (py " : <a") (py "Episode 12")
           (skipn 70 fields_page)); reflexivity.
Defined.

Lemma X8_synopsis_value_witness :
  _page naruto_read = Some fields_page /\
  synopsis (serve not_found (found_records [])) naruto_read []
  = (Ok (py "A <b>ninja</b> story."), naruto_read, []).
Proof.
  split; [reflexivity|].
  apply (X8_synopsis_value
           (serve not_found (found_records [])) naruto_read []
           (firstn 82 fields_page) (py "</h2>" ++ newline :: py "<p")
           (py "A <b>ninja</b> story.") (py "/p>") [newline]);
    reflexivity.
Defined.

Lemma X9_seasons_again_witness :
  exists l c' h',
    seasons (serve (found_page sample_page) (found_records [naruto_record]))
            naruto [] = (Ok l, c', h') /\
    seasons (serve (found_page sample_page) (found_records [naruto_record]))
            c' h' = (Ok l, c', h').
Proof.
  eexists. eexists. eexists. split; [vm_compute; reflexivity|].
  eapply (X9_seasons_again
            (serve (found_page sample_page) (found_records [naruto_record]))
            naruto []).
  vm_compute. reflexivity.
Defined.

Lemma X10_seasons_are_named_and_linked_witness :
  exists l c' h',
    seasons (serve (found_page sample_page) (found_records [naruto_record]))
            naruto [] = (Ok l, c', h') /\
    forall s, In s l ->
    exists link, Season.url s = naruto_url ++ link /\ link <> [].
Proof.
  eexists. eexists. eexists. split; [vm_compute; reflexivity|].
  intros s Hs.
  destruct (X10_seasons_are_named_and_linked
              (serve (found_page sample_page) (found_records [naruto_record]))
              naruto [] _ _ _ eq_refl s Hs) as (link & Hurl & Hne & _).
  exists link. split; [exact Hurl | exact Hne].
Defined.

Lemma X12_titles_match_symmetric_witness :
  py "Naruto" <> [] /\ py "naruto shippuden" <> [] /\
  _titles_match (py "Naruto") (Some (py "naruto shippuden"))
  = _titles_match (py "naruto shippuden") (Some (py "Naruto")).
Proof.
  split; [discriminate|]. split; [discriminate|].
  apply (X12_titles_match_symmetric (py "Naruto") (py "naruto shippuden"));
    discriminate.
Defined.

Lemma X13_empty_normal_form_matches_all_witness :
  normalize (py "?!") = [] /\
  _titles_match (py "?!") (Some (py "Naruto")) = true.
Proof.
  split; [reflexivity|].
  apply (X13_empty_normal_form_matches_all (py "?!") (py "Naruto"));
    [discriminate | left; reflexivity].
Defined.

Lemma X15_category_tests_witness :
  is_anime naruto_aliased = true /\ is_manga naruto_aliased = false.
Proof.
  destruct (X15_category_tests
              naruto_url (py "naruto") (Some [py "Naruto"; py "NARUTO"]) None
              (Some [Anime; Film]) (Some [py "VOSTFR"; py "VF"; py "VA"]) []
              naruto_aliased eq_refl) as (Ha & Hm & _).
  split.
  - apply Ha. now left.
  - destruct (is_manga naruto_aliased) eqn:E; [|reflexivity].
    destruct (proj1 Hm eq_refl) as [H|[H|[]]]; discriminate H.
Defined.

Lemma X17_fancy_name_layout_witness :
  shown_flags sample_flags (languages naruto_aliased)
  = Some [py "FR"; py "EN"] /\
  fancy_name sample_flags naruto_aliased
  = Some (py "Naruto[bright_black] - Naruto - NARUTO FR EN").
Proof.
  split; [reflexivity|].
  apply (X17_fancy_name_layout sample_flags naruto_aliased
                               [py "FR"; py "EN"] eq_refl).
Defined.

Lemma X19_untitled_record_never_matches_witness :
  title untitled_record = [] /\
  record_matches (py "Naruto") untitled_record = false.
Proof.
  split; [reflexivity|].
  apply (X19_untitled_record_never_matches (py "Naruto") untitled_record);
    [reflexivity | now left | now right].
Defined.

Lemma X20_resolved_name_has_a_source_witness :
  _name_with_year naruto = None /\
  (py "Naruto (2002)" = name naruto \/
   exists n h0 resp animes anime suffix y,
     In n (names_to_try naruto) /\
     session_get (serve not_found (found_records [naruto_record])) h0
                 (query_url n) = Ok resp /\
     status resp = 200%Z /\ json resp = Ok animes /\
     In anime animes /\ record_matches n anime = true /\
     py "Naruto (2002)" = title anime ++ suffix /\
     year_of anime = Ok y /\
     py "Naruto (2002)" = with_year (title anime) y).
Proof.
  split; [reflexivity|].
  apply (X20_resolved_name_has_a_source
           (serve not_found (found_records [naruto_record])) naruto []
           (py "Naruto (2002)")
           (with_name_with_year (py "Naruto (2002)") naruto)
           (queries [py "Naruto"])).
  - reflexivity.
  - vm_compute. reflexivity.
Defined.

Lemma X21_failed_query_is_skipped_witness :
  try_names [py "Naruto"; py "NARUTO"]
            (serve not_found (Raise TransportError)) naruto []
  = try_names [py "NARUTO"]
              (serve not_found (Raise TransportError)) naruto
              [SessionGet (query_url (py "Naruto"))].
Proof.
  apply (X21_failed_query_is_skipped
           (serve not_found (Raise TransportError)) naruto []).
  left. exists TransportError. reflexivity.
Defined.
